(** * Averaged perceptron with lazy weight averaging (src/perceptron.py)

    A shallow embedding of the classes [FeatureWeights] and [Perceptron] and
    the properties of the averaging engine, the min-update filter, label
    growth, finalization and persistence.

    Modelling conventions.
    - numpy [float64] arrays are lists of scalars.  The code is written once,
      over the interface [Scalar]; it is instantiated at IEEE binary64
      (Rocq's primitive floats: the arithmetic the program runs) and at the
      rationals [Qc] (exact arithmetic, where the ring laws hold).
    - Python integers ([update_count], [_update_index], [_min_update]) and the
      entries of the integer array [_last_update] are in [Z]; the int64 range
      of [_last_update] is not modelled (it takes 2^63 update calls to leave it).
    - label positions ([pred], [true], the entries of [_label_indices]) are
      [nat]: the docstring of [Perceptron.update] requires non-negative
      integers, so Python's negative indexing is outside the model.
    - [self.weights] (a dict keyed by feature name) is a [gmap string _]; a
      feature vector [features] is an association list, in [items()] order.
    - methods mutate [self] and can raise: they are computations in the
      monad [M S A := S -> S * (exn + A)], which keeps the state reached when
      an exception is raised. *)

From Stdlib Require Import ZArith Uint63 Floats.PrimFloat QArith Qcanon Lia Ring.
From stdpp Require Import gmap strings list fin_maps sorting pretty.

(** ** Scalars *)

Class Scalar (F : Type) := {
  fzero : F;
  fadd : F → F → F;
  fmul : F → F → F;
  fneg : F → F;
  fdiv : F → F → F;
  (** conversion of a Python/numpy integer to the scalar type *)
  of_int : Z → F;
  (** Python truthiness: [not value] is [negb (truthy value)] *)
  truthy : F → bool }.

(** Exact arithmetic: the scalars form a commutative ring, with one
    [of_int 1], and [of_int] is additive. *)
Class ExactScalar (F : Type) `{Scalar F} : Prop := {
  fadd_0_l : ∀ x : F, fadd fzero x = x;
  fadd_comm : ∀ x y : F, fadd x y = fadd y x;
  fadd_assoc : ∀ x y z : F, fadd x (fadd y z) = fadd (fadd x y) z;
  fmul_1_l : ∀ x : F, fmul (of_int 1) x = x;
  fmul_comm : ∀ x y : F, fmul x y = fmul y x;
  fmul_assoc : ∀ x y z : F, fmul x (fmul y z) = fmul (fmul x y) z;
  fmul_add_l : ∀ x y z : F, fmul (fadd x y) z = fadd (fmul x z) (fmul y z);
  fadd_neg_r : ∀ x : F, fadd x (fneg x) = fzero;
  of_int_0 : of_int 0 = fzero;
  of_int_add : ∀ a b : Z, of_int (a + b)%Z = fadd (of_int a) (of_int b) }.

(** IEEE binary64, as numpy's [float64].  An int64 converts by rounding to
    nearest; the model covers magnitudes below 2^63. *)
Definition float_of_int (z : Z) : float :=
  match z with
  | Z0 => PrimFloat.zero
  | Zpos _ => PrimFloat.of_uint63 (Uint63.of_Z z)
  | Zneg _ => PrimFloat.opp (PrimFloat.of_uint63 (Uint63.of_Z (- z)))
  end.

#[export] Instance float_scalar : Scalar float := {|
  fzero := PrimFloat.zero;
  fadd := PrimFloat.add;
  fmul := PrimFloat.mul;
  fneg := PrimFloat.opp;
  fdiv := PrimFloat.div;
  of_int := float_of_int;
  truthy x := negb (PrimFloat.eqb x PrimFloat.zero) |}.

(** Exact rationals.  (Division by zero is 0 here; no statement below
    divides by zero in this instance.) *)
#[export] Instance Qc_scalar : Scalar Qc := {|
  fzero := 0%Qc;
  fadd := Qcplus;
  fmul := Qcmult;
  fneg := Qcopp;
  fdiv := Qcdiv;
  of_int z := Q2Qc (inject_Z z);
  truthy x := negb (bool_decide (x = 0%Qc)) |}.

(** ** Exceptions and the state monad of a mutable object *)

Inductive exn := AssertionError | IndexError | ValueError | KeyError.

#[export] Instance exn_eq_dec : EqDecision exn.
Proof. solve_decision. Defined.

Definition M (S A : Type) : Type := S → S * (exn + A).

Definition raise {S A} (e : exn) : M S A := λ s, (s, inl e).
Definition get {S} : M S S := λ s, (s, inr s).
Definition put {S} (s : S) : M S unit := λ _, (s, inr tt).
Definition modify {S} (f : S → S) : M S unit := λ s, (f s, inr tt).

#[export] Instance M_ret {S} : MRet (M S) := λ A a s, (s, inr a).
#[export] Instance M_bind {S} : MBind (M S) := λ A B k c s,
  match c s with
  | (s', inl e) => (s', inl e)
  | (s', inr a) => k a s'
  end.

(** [for x in xs: body(x)] *)
Fixpoint for_each {S A} (body : A → M S unit) (xs : list A) : M S unit :=
  match xs with
  | [] => mret tt
  | x :: xs' => body x;; for_each body xs'
  end.

(** The state a computation leaves and the value or exception it ends with. *)
Definition state_of {S A} (r : S * (exn + A)) : S := r.1.
Definition outcome {S A} (r : S * (exn + A)) : exn + A := r.2.

(** ** numpy vectors *)

Section Vectors.
Context {A : Type}.

(** [a[i]] for an integer [i]: IndexError out of range. *)
Definition getitem (v : list A) (i : nat) : exn + A :=
  match v !! i with Some x => inr x | None => inl IndexError end.

(** [a[idx]] for a list of positions (fancy indexing): a gathered copy. *)
Fixpoint gather (v : list A) (idx : list nat) : exn + list A :=
  match idx with
  | [] => inr []
  | i :: idx' =>
      match v !! i, gather v idx' with
      | Some x, inr xs => inr (x :: xs)
      | None, _ => inl IndexError
      | _, inl e => inl e
      end
  end.

(** [a[idx] = vals]: assignments in order, a repeated position keeps the
    last value.  (Positions were checked by the preceding [gather].) *)
Fixpoint scatter (v : list A) (idx : list nat) (vals : list A) : list A :=
  match idx, vals with
  | i :: idx', x :: vals' => scatter (<[i:=x]> v) idx' vals'
  | _, _ => v
  end.

(** [ndarray.resize(n, refcheck=False)]: in place, new entries are zero,
    a shorter length truncates. *)
Definition resize_vec (z : A) (n : nat) (v : list A) : list A :=
  take n (v ++ replicate (n - length v) z).
End Vectors.

(** ** class FeatureWeights: the weights of one feature, for all labels *)

Module FeatureWeights.
Section WithScalar.
Context {F : Type} `{Scalar F}.

(** The attributes of an instance.  [FeatureWeights(weights=w)] sets
    [weights] only; the three bookkeeping attributes are then absent in
    Python and hold the empty vectors and 0 here.  Such instances live in
    frozen models only, whose methods never read the bookkeeping. *)
Record t := mk {
  weights : list F;
  _totals : list F;
  _last_update : list Z;
  update_count : Z }.

(** [FeatureWeights(num_labels)] *)
Definition init (num_labels : nat) : t :=
  mk (replicate num_labels fzero) (replicate num_labels fzero)
     (replicate num_labels 0%Z) 0.

(** [FeatureWeights(weights=w)] *)
Definition of_weights (w : list F) : t := mk w [] [] 0.

(** What one cell of [_totals] becomes when it is synchronised. *)
Definition synced (tot x : F) (last update_index : Z) : F :=
  fadd tot (fmul x (of_int (update_index - last))).

(** [_update_totals(label, update_index)] for an integer [label].  The
    three reads precede both writes. *)
Definition _update_totals (label : nat) (update_index : Z) : M t unit := λ w,
  match _totals w !! label, weights w !! label, _last_update w !! label with
  | Some tot, Some x, Some last =>
      (mk (weights w)
          (<[label := synced tot x last update_index]> (_totals w))
          (<[label := update_index]> (_last_update w))
          (update_count w), inr tt)
  | _, _, _ => (w, inl IndexError)
  end.

(** [_update_totals(labels, update_index)] for a list of positions, as
    [finalize] calls it: numpy gathers the three operands, computes, and
    assigns back. *)
Definition _update_totals_list (labels : list nat) (update_index : Z)
  : M t unit := λ w,
  match gather (_totals w) labels, gather (weights w) labels,
        gather (_last_update w) labels with
  | inr tots, inr xs, inr lasts =>
      (mk (weights w)
          (scatter (_totals w) labels
             (zip_with (λ tot xl, synced tot xl.1 xl.2 update_index)
                       tots (zip xs lasts)))
          (scatter (_last_update w) labels
             (replicate (length labels) update_index))
          (update_count w), inr tt)
  | _, _, _ => (w, inl IndexError)
  end.

Definition update (label : nat) (value : F) (update_index : Z) : M t unit :=
  modify (λ w, mk (weights w) (_totals w) (_last_update w)
                  (update_count w + 1));;
  _update_totals label update_index;;
  w ← get;
  match weights w !! label with
  | Some x => put (mk (<[label := fadd x value]> (weights w)) (_totals w)
                      (_last_update w) (update_count w))
  | None => raise IndexError
  end.

Definition finalize (update_index : Z) (labels : list nat) (average : bool)
  : M t t :=
  _update_totals_list labels update_index;;
  w ← get;
  match gather (if average then _totals w else weights w) labels with
  | inr xs =>
      mret (of_weights
              (if average then map (λ x, fdiv x (of_int update_index)) xs
               else xs))
  | inl e => raise e
  end.

Definition resize (num_labels : nat) : M t unit :=
  modify (λ w, mk (resize_vec fzero num_labels (weights w))
                  (resize_vec fzero num_labels (_totals w))
                  (resize_vec 0%Z num_labels (_last_update w))
                  (update_count w)).

(** The three vectors of a trainable instance have length [n]. *)
Definition dim (n : nat) (w : t) : Prop :=
  length (weights w) = n ∧ length (_totals w) = n
  ∧ length (_last_update w) = n.
End WithScalar.
Arguments t : clear implicits.
End FeatureWeights.

(** ** class Perceptron: multi-class averaged perceptron with min-update *)

Module Perceptron.
Section WithScalar.
Context {F : Type} `{Scalar F}.
Local Abbreviation FW := (FeatureWeights.t F).

(** The attributes of an instance.  The constructor of a frozen model does
    not set [_min_update], [_update_index] and [_true_labels]; they hold
    0, 0 and [[]] here, and no method reads them while [is_frozen]. *)
Record t := mk {
  labels : list string;
  _init_num_labels : nat;
  weights : gmap string FW;
  is_frozen : bool;
  _label_indices : option (list nat);
  _min_update : Z;
  _update_index : Z;
  _true_labels : list bool }.

Definition num_labels (p : t) : nat := length (labels p).

Definition set_weights (m : gmap string FW) (p : t) : t :=
  mk (labels p) (_init_num_labels p) m (is_frozen p) (_label_indices p)
     (_min_update p) (_update_index p) (_true_labels p).
Definition set_update_index (i : Z) (p : t) : t :=
  mk (labels p) (_init_num_labels p) (weights p) (is_frozen p)
     (_label_indices p) (_min_update p) i (_true_labels p).
Definition set_true_labels (tl : list bool) (p : t) : t :=
  mk (labels p) (_init_num_labels p) (weights p) (is_frozen p)
     (_label_indices p) (_min_update p) (_update_index p) tl.
Definition set_labels (ls : list string) (p : t) : t :=
  mk ls (_init_num_labels p) (weights p) (is_frozen p)
     (_label_indices p) (_min_update p) (_update_index p) (_true_labels p).

(** [Perceptron(labels, min_update, weights, label_indices)] *)
Definition init (labels : list string) (min_update : Z)
    (weights : option (gmap string FW)) (label_indices : option (list nat))
  : t :=
  match weights with
  | Some m => mk labels (length labels) m true label_indices 0 0 []
  | None => mk labels (length labels) ∅ false label_indices min_update 0
               (replicate (length labels) false)
  end.

(** The caller appends a label to [self.labels] (the list is shared with
    the caller and grows between calls). *)
Definition append_label (l : string) (p : t) : t :=
  set_labels (labels p ++ [l]) p.

Definition lift {A} (r : exn + A) : M t A := λ p, (p, r).

Definition _update_num_labels : M t unit :=
  modify (λ p,
    if decide (length (_true_labels p) < num_labels p)%nat then
      set_weights
        ((λ w, state_of (FeatureWeights.resize (num_labels p) w))
           <$> weights p)
        (set_true_labels
           (_true_labels p
              ++ replicate (num_labels p - length (_true_labels p)) false) p)
    else p).

(** [scores += v] on arrays of one dimension: equal lengths, or [v] of
    length 1 is broadcast; anything else is a ValueError. *)
Definition iadd_broadcast (scores v : list F) : exn + list F :=
  if decide (length v = length scores) then inr (zip_with fadd scores v)
  else match v with
       | [x] => inr (map (λ s, fadd s x) scores)
       | _ => inl ValueError
       end.

(** One iteration of the loop of [score]. *)
Definition score_feature (p : t) (scores : list F) (fv : string * F)
  : exn + list F :=
  if negb (truthy fv.2) then inr scores
  else match weights p !! fv.1 with
       | None => inr scores
       | Some w =>
           if negb (is_frozen p)
              && (FeatureWeights.update_count w <? _min_update p)%Z
           then inr scores
           else iadd_broadcast scores
                  (map (fmul fv.2) (FeatureWeights.weights w))
       end.

Fixpoint score_loop (p : t) (scores : list F) (features : list (string * F))
  : exn + list F :=
  match features with
  | [] => inr scores
  | fv :: features' =>
      match score_feature p scores fv with
      | inr scores' => score_loop p scores' features'
      | inl e => inl e
      end
  end.

(** A dict built from key/value pairs in order: a later pair overwrites. *)
Definition dict_of {V} (kvs : list (nat * V)) : gmap nat V :=
  foldl (λ m kv, <[kv.1 := kv.2]> m) ∅ kvs.

Definition enumerate {V} (l : list V) : list (nat * V) :=
  zip (seq 0 (length l)) l.

Definition score_dict (p : t) (scores : list F) : exn + gmap nat F :=
  match _label_indices p with
  | None => inr (dict_of (enumerate scores))
  | Some idx =>
      match gather idx (seq 0 (length scores)) with
      | inr keys => inr (dict_of (zip keys scores))
      | inl e => inl e
      end
  end.

Definition score (features : list (string * F)) : M t (gmap nat F) :=
  p0 ← get;
  (if is_frozen p0 then mret tt else _update_num_labels);;
  p ← get;
  scores ← lift (score_loop p (replicate (num_labels p) fzero) features);
  lift (score_dict p scores).

(** [weights = self.weights[feature]] on the defaultdict, followed by
    method calls on that object: a missing entry is created with
    [FeatureWeights(self.num_labels)], and the calls mutate the entry. *)
Definition with_feature (f : string) (c : M FW unit) : M t unit := λ p,
  let w := default (FeatureWeights.init (num_labels p)) (weights p !! f) in
  (set_weights (<[f := state_of (c w)]> (weights p)) p, outcome (c w)).

(** The two calls that the loop of [update] makes on the weights of a
    feature of value [value]. *)
Definition feature_updates (pred true_label : nat) (learning_rate value : F)
    (update_index : Z) : M FW unit :=
  FeatureWeights.update true_label (fmul learning_rate value) update_index;;
  FeatureWeights.update pred (fmul (fneg learning_rate) value) update_index.

(** One iteration of the loop of [update]. *)
Definition update_feature (pred true_label : nat) (learning_rate : F)
    (fv : string * F) : M t unit :=
  if negb (truthy fv.2) then mret tt
  else
    p ← get;
    with_feature fv.1
      (feature_updates pred true_label learning_rate fv.2 (_update_index p)).

Definition update (features : list (string * F)) (pred true_label : nat)
    (learning_rate : F) : M t unit :=
  p ← get;
  if is_frozen p then raise AssertionError
  else
    modify (λ p, set_update_index (_update_index p + 1) p);;
    _update_num_labels;;
    p ← get;
    (if decide (true_label < length (_true_labels p))%nat
     then put (set_true_labels (<[true_label := true]> (_true_labels p)) p)
     else raise IndexError);;
    for_each (update_feature pred true_label learning_rate) features.

(** [[(i, l) for i, (t, l) in enumerate(zip(_true_labels, labels)) if t]] *)
Definition kept_labels (p : t) : list (nat * string) :=
  omap (λ x : nat * (bool * string),
          if x.2.1 then Some (x.1, x.2.2) else None)
       (enumerate (zip (_true_labels p) (labels p))).

(** The dict comprehension of [finalize].  Every feature that passes the
    threshold is finalized, which synchronises its totals in place; the
    first exception stops the loop.  (The fold visits the features in the
    order of the map, Python in insertion order: the two differ only in
    which entries are already synchronised when an exception is raised.) *)
Definition finalize_step (update_index min_update : Z) (kept : list nat)
    (average : bool) (f : string) (w : FW)
    (acc : gmap string FW * (exn + gmap string FW))
  : gmap string FW * (exn + gmap string FW) :=
  match acc.2 with
  | inl e => acc
  | inr out =>
      if decide (min_update ≤ FeatureWeights.update_count w)%Z then
        let r := FeatureWeights.finalize update_index kept average w in
        (<[f := state_of r]> acc.1,
         match outcome r with
         | inr w' => inr (<[f := w']> out)
         | inl e => inl e
         end)
      else acc
  end.

Definition finalize_weights (kept : list nat) (average : bool)
  : M t (gmap string FW) := λ p,
  let r := map_fold
             (finalize_step (_update_index p) (_min_update p) kept average)
             (weights p, inr ∅) (weights p) in
  (set_weights r.1 p, r.2).

(** [finalize].  The report it prints (timing, label and feature counts) is
    an observation outside the model; none of its expressions can raise
    once the grow-check has run. *)
Definition finalize (average : bool) : M t t :=
  p ← get;
  if is_frozen p then raise AssertionError
  else
    _update_num_labels;;
    p ← get;
    match kept_labels p with
    | [] => raise ValueError
    | kept =>
        ws ← finalize_weights kept.*1 average;
        mret (init kept.*2 1 (Some ws) (Some kept.*1))
    end.

(** The dictionary that [save] hands to [io.save].  The three training
    entries are present exactly when the model is not frozen. *)
Record saved := mk_saved {
  d_labels : list string;
  d_weights : gmap string FW;
  d_is_frozen : bool;
  d_training : option (Z * Z * list bool) }.

Definition save (p : t) : saved :=
  mk_saved (labels p) (weights p) (is_frozen p)
    (if is_frozen p then None
     else Some (_min_update p, _update_index p, _true_labels p)).

(** [load], on the dictionary that [io.load] returns. *)
Definition load (d : saved) : M t unit :=
  modify (λ p, mk (d_labels d) (_init_num_labels p) (d_weights d)
                  (d_is_frozen d) (_label_indices p) (_min_update p)
                  (_update_index p) (_true_labels p));;
  if d_is_frozen d then mret tt
  else match d_training d with
       | Some (mu, ui, tl) =>
           modify (λ p, mk (labels p) (_init_num_labels p) (weights p)
                           (is_frozen p) (_label_indices p) mu ui tl)
       | None => raise KeyError
       end.

(** *** Training sessions

    The calls a client makes on a model, in order.  A call that raises
    leaves the state it had reached, and the session goes on from there. *)
Inductive call :=
  | Update (features : list (string * F)) (pred true_label : nat)
           (learning_rate : F)
  | Score (features : list (string * F))
  | AppendLabel (l : string)
  | Finalize (average : bool).

Definition exec_call (p : t) (c : call) : t :=
  match c with
  | Update features pred true_label learning_rate =>
      state_of (update features pred true_label learning_rate p)
  | Score features => state_of (score features p)
  | AppendLabel l => append_label l p
  | Finalize average => state_of (finalize average p)
  end.

Definition run (calls : list call) (p : t) : t := foldl exec_call p calls.

(** The positions passed as [true] to the [update] calls of a session. *)
Definition true_args (calls : list call) : list nat :=
  omap (λ c, match c with Update _ _ tl _ => Some tl | _ => None end) calls.

(** The state after the grow-check. *)
Definition grown (p : t) : t := state_of (_update_num_labels p).

(** The feature is stored with fewer than [_min_update] counted calls. *)
Definition below_min_update (p : t) (f : string) : bool :=
  match weights p !! f with
  | Some w => (FeatureWeights.update_count w <? _min_update p)%Z
  | None => false
  end.

(** What the fold of [finalize_step] over the features [m], started from
    the stored features [m0], has established. *)
Definition finalize_fold_post (n : nat) (update_index min_update : Z)
    (kept : list nat) (average : bool) (m0 : gmap string FW)
    (r : gmap string FW * (exn + gmap string FW)) (m : gmap string FW)
  : Prop :=
  (map_Forall (λ _ w, FeatureWeights.dim n w) m0 →
   map_Forall (λ _ w, FeatureWeights.dim n w) m →
   map_Forall (λ _ w, FeatureWeights.dim n w) r.1)
  ∧ (∀ f, FeatureWeights.update_count <$> m0 !! f
          = FeatureWeights.update_count <$> m !! f ∨ m !! f = None →
          FeatureWeights.update_count <$> r.1 !! f
          = FeatureWeights.update_count <$> m0 !! f)
  ∧ (∀ out, r.2 = inr out →
       (∀ f, is_Some (out !! f)
             ↔ ∃ w, m !! f = Some w
                    ∧ (min_update ≤ FeatureWeights.update_count w)%Z)
       ∧ (∀ f w', out !! f = Some w' →
            ∃ w, m !! f = Some w
                 ∧ outcome (FeatureWeights.finalize update_index kept
                              average w) = inr w'))
  ∧ (map_Forall (λ _ w, FeatureWeights.dim n w) m →
     Forall (λ i, i < n)%nat kept → ∃ out, r.2 = inr out).

(** The score vector that [score] accumulates, before it is keyed. *)
Definition score_vector (features : list (string * F)) (p : t)
  : exn + list F :=
  let p1 := if is_frozen p then p else grown p in
  score_loop p1 (replicate (num_labels p1) fzero) features.

(** There are [n] labels and the vectors of every feature have [n] cells. *)
Definition covered (n : nat) (p : t) : Prop :=
  num_labels p = n ∧ map_Forall (λ _ w, FeatureWeights.dim n w) (weights p).

(** The state in which [update] enters its loop: the counter incremented,
    the grow-check done, the flag of the true label set. *)
Definition before_loop (true_label : nat) (p : t) : t :=
  let g := grown (set_update_index (_update_index p + 1) p) in
  set_true_labels (<[true_label := true]> (_true_labels g)) g.

(** Well-formedness of a trainable model: the flags do not outnumber the
    labels, and every feature's vectors are as long as the flag vector. *)
Definition wf (p : t) : Prop :=
  (length (_true_labels p) ≤ num_labels p)%nat
  ∧ map_Forall (λ _ w, FeatureWeights.dim (length (_true_labels p)) w)
               (weights p).

Definition set_init_num_labels (k : nat) (p : t) : t :=
  mk (labels p) k (weights p) (is_frozen p) (_label_indices p)
     (_min_update p) (_update_index p) (_true_labels p).

(** [save] followed by [load] into a fresh [Perceptron()]. *)
Definition restored (p : t) : t :=
  state_of (load (save p) (init [] 1 None None)).

(** [__str__]: the [%d] conversions are decimal numerals. *)
Definition __str__ (p : t) : string :=
  pretty (num_labels p) +:+ " labels total, "
  +:+ (if is_frozen p then "frozen"
       else pretty (length (filter (λ b, b = true) (_true_labels p)))
            +:+ " labels occurred").
End WithScalar.
Arguments t : clear implicits.
Arguments saved : clear implicits.
Arguments call : clear implicits.
End Perceptron.

(** ** The averaging engine and its reference

    A [FeatureWeights] instance receives [update] calls and is then
    finalized.  The reference is the sum the specification describes: the
    weight of a label held over each unit step. *)

Module Averaging.
Section WithScalar.
Context {F : Type} `{Scalar F}.

(** One call [update(label, value, step)]. *)
Record call := Call { label : nat; value : F; step : Z }.

(** The code: the calls, in order, on one instance. *)
Definition run_calls (calls : list call) : M (FeatureWeights.t F) unit :=
  for_each (λ c, FeatureWeights.update (label c) (value c) (step c)) calls.

(** The code: the calls, then [finalize(update_index, labels, average)]. *)
Definition run_and_finalize (calls : list call) (update_index : Z)
    (labels : list nat) (average : bool)
  : M (FeatureWeights.t F) (FeatureWeights.t F) :=
  run_calls calls;; FeatureWeights.finalize update_index labels average.

(** The reference: the weight of label [i] held over the unit step from
    [t] to [t + 1], the sum of the values added to it by the calls of step
    at most [t], in the order of the calls. *)
Definition weight_at (calls : list call) (i : nat) (t : Z) : F :=
  foldl (λ acc c,
           if decide (label c = i ∧ (step c ≤ t)%Z) then fadd acc (value c)
           else acc)
        fzero calls.

(** The reference: the sum of the weight held over the first [k] unit
    steps, accumulated step by step. *)
Fixpoint held_sum_steps (calls : list call) (i : nat) (k : nat) : F :=
  match k with
  | O => fzero
  | S k' => fadd (held_sum_steps calls i k') (weight_at calls i (Z.of_nat k'))
  end.

(** The reference: the sum over the unit steps from step 0 to
    [update_index]. *)
Definition held_sum (calls : list call) (i : nat) (update_index : Z) : F :=
  held_sum_steps calls i (Z.to_nat update_index).

(** The invariant of the lazy scheme: synchronising a cell at any step not
    before the calls so far gives the reference sum up to that step. *)
Definition lazy_invariant (n : nat) (calls : list call)
    (w : FeatureWeights.t F) : Prop :=
  FeatureWeights.dim n w
  ∧ ∀ i, (i < n)%nat →
      ∃ x tot last,
        FeatureWeights.weights w !! i = Some x
        ∧ FeatureWeights._totals w !! i = Some tot
        ∧ FeatureWeights._last_update w !! i = Some last
        ∧ ∀ T, Forall (λ c, (step c ≤ T)%Z) calls →
               FeatureWeights.synced tot x last T = held_sum calls i T.
End WithScalar.
Arguments call : clear implicits.
End Averaging.

(** ** The scenario of the specification, in binary64

    Labels [A, B], [min_update = 1]; [update({"f1": 1.0}, pred=0, true=1,
    learning_rate=1)], then [update({"f1": 1.0}, pred=1, true=1)]. *)

Module Scenario.
Import Perceptron.

Definition f1 : list (string * float) := [("f1"%string, 1%float)].

Definition start : Perceptron.t float :=
  init ["A"; "B"]%string 1 None None.

Definition after_first : Perceptron.t float :=
  state_of (update f1 0 1 1%float start).

Definition after_second : Perceptron.t float :=
  state_of (update f1 1 1 1%float after_first).

(** The two calls as a session. *)
Definition session : list (Perceptron.call float) :=
  [Update f1 0 1 1%float; Update f1 1 1 1%float].

(** [after_second.finalize()]: the model it returns (label A, never a true
    label, is pruned). *)
Definition finalized : Perceptron.t float :=
  match outcome (finalize true after_second) with
  | inr q => q
  | inl _ => start
  end.

(** [Perceptron()], into which a saved model is loaded. *)
Definition fresh : Perceptron.t float := init [] 1 None None.

(** [finalized] saved and loaded into a fresh instance. *)
Definition reloaded : Perceptron.t float :=
  state_of (load (save finalized) fresh).

(** A run with learning rate 0.1: a mistake on the value 1.0, then a
    correct prediction on the value 2.0. *)
Definition tenth_first : Perceptron.t float :=
  state_of (update [("f1"%string, 1%float)] 0 1 0x1.999999999999ap-4%float
              start).

Definition tenth_second : Perceptron.t float :=
  state_of (update [("f1"%string, 2%float)] 1 1 0x1.999999999999ap-4%float
              tenth_first).

(** A model with [min_update = 3]: f1 is named in two calls, f2 in one. *)
Definition threshold_model : Perceptron.t float :=
  run [Update [("f1"%string, 1%float); ("f2"%string, 1%float)] 0 1 1%float;
       Update f1 0 1 1%float]
      (init ["A"; "B"]%string 3 None None).

Definition threshold_finalized : Perceptron.t float :=
  match outcome (finalize true threshold_model) with
  | inr q => q
  | inl _ => start
  end.

(** The scenario on the rationals. *)
Definition start_exact : Perceptron.t Qc :=
  init ["A"; "B"]%string 1 None None.

Definition f1_exact : list (string * Qc) := [("f1"%string, Q2Qc 1)].
End Scenario.

(** * Properties *)

(** ** The monad *)

Ltac unfold_m :=
  unfold mbind, M_bind, mret, M_ret, get, put, modify, raise,
    state_of, outcome in *.

Section MonadFacts.
Context {S A : Type}.
Implicit Types (body : A → M S unit) (xs : list A) (s : S).

Lemma for_each_nil body s : for_each body [] s = (s, inr tt).
Proof. reflexivity. Qed.

Lemma for_each_cons body x xs s :
  for_each body (x :: xs) s =
  match body x s with
  | (s', inl e) => (s', inl e)
  | (s', inr _) => for_each body xs s'
  end.
Proof. reflexivity. Qed.

(** A property of the state that every iteration keeps, whether it returns
    or raises, holds of the state the loop leaves. *)
Lemma for_each_state_inv (I : S → Prop) body xs s :
  (∀ x s', I s' → I (state_of (body x s'))) →
  I s → I (state_of (for_each body xs s)).
Proof.
  intros Hbody. revert s. induction xs as [|x xs IH]; intros s Hs; [done|].
  rewrite for_each_cons. specialize (Hbody x s Hs).
  destruct (body x s) as [s' [e|[]]]; [done|]. by apply IH.
Qed.

(** An exception of the loop is an exception of one of its iterations. *)
Lemma for_each_raises body xs s e :
  outcome (for_each body xs s) = inl e →
  ∃ x s', x ∈ xs ∧ outcome (body x s') = inl e.
Proof.
  revert s. induction xs as [|x xs IH]; intros s; [done|].
  rewrite for_each_cons. destruct (body x s) as [s' [e'|[]]] eqn:Hb.
  - intros [= ->]. exists x, s. split; [left|]. by rewrite Hb.
  - intros (y & s'' & Hy & He)%IH. exists y, s''. split; [by right|done].
Qed.

(** A loop whose iterations all return, on the states that satisfy an
    invariant, is the fold of their effects. *)
Lemma for_each_returns (I : S → Prop) (step : S → A → S) body xs s :
  (∀ x s', I s' → body x s' = (step s' x, inr tt) ∧ I (step s' x)) →
  I s →
  for_each body xs s = (foldl step s xs, inr tt) ∧ I (foldl step s xs).
Proof.
  intros Hb. revert s. induction xs as [|x xs IH]; intros s Hs; [done|].
  rewrite for_each_cons. destruct (Hb x s Hs) as [-> Hs']. simpl.
  by apply IH.
Qed.

Lemma for_each_app body xs ys s :
  for_each body (xs ++ ys) s =
  match for_each body xs s with
  | (s', inl e) => (s', inl e)
  | (s', inr _) => for_each body ys s'
  end.
Proof.
  revert s. induction xs as [|x xs IH]; intros s.
  { simpl. by destruct (for_each body ys s) as [s' [e|[]]]. }
  rewrite <- app_comm_cons, !for_each_cons.
  destruct (body x s) as [s' [e|[]]]; [done|]. apply IH.
Qed.
End MonadFacts.

(** ** Vectors *)

Section VectorFacts.
Context {A : Type}.
Implicit Types (v : list A) (z : A) (n i : nat).

Lemma length_resize_vec z n v : length (resize_vec z n v) = n.
Proof.
  unfold resize_vec. rewrite length_take, length_app, length_replicate. lia.
Qed.

Lemma resize_vec_lookup_old z n v i :
  (length v ≤ n)%nat → (i < length v)%nat → resize_vec z n v !! i = v !! i.
Proof.
  intros Hn Hi. unfold resize_vec.
  rewrite lookup_take_lt by lia. by rewrite lookup_app_l.
Qed.

Lemma resize_vec_lookup_new z n v i :
  (length v ≤ i)%nat → (i < n)%nat → resize_vec z n v !! i = Some z.
Proof.
  intros Hi Hn. unfold resize_vec.
  rewrite lookup_take_lt by lia. rewrite lookup_app_r by lia.
  apply lookup_replicate_2. lia.
Qed.

Lemma resize_vec_same z v : resize_vec z (length v) v = v.
Proof.
  unfold resize_vec. rewrite Nat.sub_diag. simpl.
  rewrite app_nil_r. apply firstn_all.
Qed.

Lemma gather_returns v idx :
  Forall (λ i, i < length v)%nat idx →
  ∃ xs, gather v idx = inr xs ∧ length xs = length idx
        ∧ ∀ k i, idx !! k = Some i → xs !! k = v !! i.
Proof.
  induction 1 as [|i idx Hi _ (xs & Hg & Hlen & Hxs)]; simpl.
  - exists []. by split_and!.
  - destruct (lookup_lt_is_Some_2 v i Hi) as [x Hx]. rewrite Hx, Hg.
    exists (x :: xs). split_and!; [done|simpl; lia|].
    intros [|k] j; simpl; [by intros [= <-]|apply Hxs].
Qed.

Lemma gather_inr_bounds v idx xs :
  gather v idx = inr xs → Forall (λ i, i < length v)%nat idx.
Proof.
  revert xs. induction idx as [|i idx IH]; intros xs; simpl; [by constructor|].
  destruct (v !! i) as [x|] eqn:Hx; [|done].
  destruct (gather v idx) as [e|ys]; [done|]. intros _.
  constructor; [by eapply lookup_lt_Some|by eapply IH].
Qed.

Lemma length_scatter v idx vals : length (scatter v idx vals) = length v.
Proof.
  revert v vals. induction idx as [|i idx IH]; intros v [|x vals]; simpl;
    try done. by rewrite IH, length_insert.
Qed.

(** After a scatter on distinct positions, a listed cell holds its value
    and the other cells are untouched. *)
Lemma scatter_lookup_other v idx vals j :
  j ∉ idx → scatter v idx vals !! j = v !! j.
Proof.
  revert v vals. induction idx as [|i idx IH]; intros v [|x vals] Hj; simpl;
    try done.
  rewrite IH by set_solver. apply list_lookup_insert_ne. set_solver.
Qed.

Lemma scatter_lookup_listed v idx vals k i x :
  NoDup idx → length vals = length idx → (i < length v)%nat →
  idx !! k = Some i → vals !! k = Some x →
  scatter v idx vals !! i = Some x.
Proof.
  intros Hnd. revert v vals k.
  induction Hnd as [|i0 idx Hi0 Hnd IH]; intros v [|x0 vals] k Hlen Hi;
    simpl in *; try done.
  destruct k as [|k]; simpl.
  - intros [= ->] [= ->]. rewrite scatter_lookup_other by done.
    by apply list_lookup_insert_eq.
  - intros Hk Hx. apply (IH _ vals k); [lia|by rewrite length_insert|done..].
Qed.

Lemma gather_raises v idx e : gather v idx = inl e → e = IndexError.
Proof.
  induction idx as [|i idx IH]; simpl; [done|].
  destruct (v !! i); [|by intros [= <-]].
  destruct (gather v idx); [|done]. intros [= <-]. by apply IH.
Qed.
End VectorFacts.

(** ** FeatureWeights *)

Section FeatureWeightsFacts.
Context {F : Type} `{Scalar F}.
Implicit Types (w : FeatureWeights.t F) (label n : nat) (value : F).
Import FeatureWeights.

Lemma dim_init n : dim n (init n).
Proof. unfold dim, init. simpl. by rewrite !length_replicate. Qed.

Lemma dim_lookups n w label :
  dim n w → (label < n)%nat →
  ∃ x tot last, weights w !! label = Some x ∧ _totals w !! label = Some tot
                ∧ _last_update w !! label = Some last.
Proof.
  intros (Hw & Ht & Hl) Hlt.
  destruct (lookup_lt_is_Some_2 (weights w) label) as [x ?]; [lia|].
  destruct (lookup_lt_is_Some_2 (_totals w) label) as [tot ?]; [lia|].
  destruct (lookup_lt_is_Some_2 (_last_update w) label) as [last ?]; [lia|].
  by exists x, tot, last.
Qed.

(** [update] on a position inside the three vectors. *)
Lemma update_returns label value update_index w x tot last :
  weights w !! label = Some x → _totals w !! label = Some tot →
  _last_update w !! label = Some last →
  update label value update_index w =
  (mk (<[label := fadd x value]> (weights w))
      (<[label := synced tot x last update_index]> (_totals w))
      (<[label := update_index]> (_last_update w))
      (update_count w + 1), inr tt).
Proof.
  intros Hx Ht Hl. unfold update, _update_totals. unfold_m. simpl.
  rewrite Ht, Hx, Hl. simpl. by rewrite Hx.
Qed.

(** [update] returns or raises IndexError, and counts the call either way. *)
Lemma update_outcome label value update_index w :
  outcome (update label value update_index w) = inr tt
  ∨ outcome (update label value update_index w) = inl IndexError.
Proof.
  unfold update, _update_totals. unfold_m. simpl.
  destruct (_totals w !! label), (weights w !! label) eqn:Hx,
    (_last_update w !! label); simpl; rewrite ?Hx; auto.
Qed.

Lemma update_dim n label value update_index w :
  dim n w → dim n (state_of (update label value update_index w)).
Proof.
  unfold update, _update_totals, dim. unfold_m. simpl.
  destruct (_totals w !! label), (weights w !! label) eqn:Hx,
    (_last_update w !! label); simpl; rewrite ?Hx; simpl;
    rewrite ?length_insert; auto.
Qed.

Lemma update_update_count label value update_index w :
  update_count (state_of (update label value update_index w))
  = (update_count w + 1)%Z.
Proof.
  unfold update, _update_totals. unfold_m. simpl.
  destruct (_totals w !! label), (weights w !! label) eqn:Hx,
    (_last_update w !! label); simpl; rewrite ?Hx; done.
Qed.

Lemma resize_dim n w : dim n (state_of (resize n w)).
Proof.
  unfold resize, dim. unfold_m. simpl. by rewrite !length_resize_vec.
Qed.

Lemma resize_update_count n w :
  update_count (state_of (resize n w)) = update_count w.
Proof. reflexivity. Qed.
End FeatureWeightsFacts.

(** ** Perceptron: the grow-check *)

Section PerceptronFacts.
Context {F : Type} `{Scalar F}.
Implicit Types (p : Perceptron.t F) (w : FeatureWeights.t F) (f : string).
Import Perceptron.

(** The state after the grow-check. *)
Lemma _update_num_labels_returns p :
  _update_num_labels p = (grown p, inr tt).
Proof. reflexivity. Qed.

Lemma grown_frame p :
  labels (grown p) = labels p ∧ is_frozen (grown p) = is_frozen p
  ∧ _label_indices (grown p) = _label_indices p
  ∧ _min_update (grown p) = _min_update p
  ∧ _update_index (grown p) = _update_index p.
Proof.
  unfold grown, _update_num_labels. unfold_m. simpl. by case_decide.
Qed.

Lemma grown_true_labels p :
  _true_labels (grown p) =
  _true_labels p ++ replicate (num_labels p - length (_true_labels p)) false.
Proof.
  unfold grown, _update_num_labels. unfold_m. simpl. case_decide; [done|].
  replace (num_labels p - length (_true_labels p))%nat with 0%nat by lia.
  simpl. by rewrite app_nil_r.
Qed.

Lemma grown_weights p f :
  weights (grown p) !! f =
  if decide (length (_true_labels p) < num_labels p)%nat
  then (λ w, state_of (FeatureWeights.resize (num_labels p) w))
         <$> weights p !! f
  else weights p !! f.
Proof.
  unfold grown, _update_num_labels. unfold_m. simpl. case_decide; [|done].
  simpl. by rewrite lookup_fmap.
Qed.

Lemma grown_update_count p f :
  FeatureWeights.update_count <$> weights (grown p) !! f
  = FeatureWeights.update_count <$> weights p !! f.
Proof.
  rewrite grown_weights. case_decide; [|done].
  by destruct (weights p !! f).
Qed.

Lemma num_labels_grown p : num_labels (grown p) = num_labels p.
Proof. unfold num_labels. by rewrite (proj1 (grown_frame p)). Qed.

(** After the grow-check of a well-formed model there is one flag per label
    and every vector has one cell per label. *)
Lemma wf_grown p :
  wf p →
  wf (grown p) ∧ length (_true_labels (grown p)) = num_labels p.
Proof.
  intros [Hlen Hdim].
  assert (length (_true_labels (grown p)) = num_labels p) as Hg.
  { rewrite grown_true_labels, length_app, length_replicate. lia. }
  split; [|done]. split; [rewrite num_labels_grown; lia|].
  intros f w Hw. rewrite Hg. rewrite grown_weights in Hw.
  case_decide.
  - destruct (weights p !! f) as [w0|]; [|done]. injection Hw as <-.
    apply resize_dim.
  - replace (num_labels p) with (length (_true_labels p)) by lia.
    by apply (Hdim f).
Qed.

Lemma wf_append_label l p : wf p → wf (append_label l p).
Proof.
  intros [Hlen Hdim]. split; [|done].
  unfold num_labels, append_label. simpl. rewrite length_app. simpl.
  unfold num_labels in Hlen. lia.
Qed.

Lemma wf_init ls min_update idx : wf (init (F:=F) ls min_update None idx).
Proof.
  split; simpl.
  - unfold num_labels. simpl. by rewrite length_replicate.
  - apply map_Forall_empty.
Qed.
End PerceptronFacts.

(** ** Perceptron.update *)

Section UpdateFacts.
Context {F : Type} `{Scalar F}.
Implicit Types (p : Perceptron.t F) (w : FeatureWeights.t F) (f : string).
Implicit Types (features : list (string * F)) (pred true_label n : nat).
Import Perceptron.

Lemma insert_as_alter {A} (g : A → A) (l : list A) i x :
  l !! i = Some x → <[i := g x]> l = alter g i l.
Proof.
  intros Hx. apply list_eq. intros j. destruct (decide (i = j)) as [<-|Hne].
  - rewrite list_lookup_alter_eq, Hx.
    apply list_lookup_insert_eq. by eapply lookup_lt_Some.
  - by rewrite list_lookup_alter_ne, list_lookup_insert_ne.
Qed.

(** The two calls on a feature whose vectors cover both positions: both
    return; the true label's weight gains [learning_rate * value], then the
    predicted label's weight gains [-learning_rate * value]; the calls are
    counted one each. *)
Lemma feature_updates_returns n pred true_label lr value update_index w :
  FeatureWeights.dim n w → (pred < n)%nat → (true_label < n)%nat →
  ∃ w', feature_updates pred true_label lr value update_index w = (w', inr tt)
    ∧ FeatureWeights.dim n w'
    ∧ FeatureWeights.weights w' =
        alter (λ x, fadd x (fmul (fneg lr) value)) pred
          (alter (λ x, fadd x (fmul lr value)) true_label
             (FeatureWeights.weights w))
    ∧ FeatureWeights._last_update w' =
        <[pred := update_index]>
          (<[true_label := update_index]> (FeatureWeights._last_update w))
    ∧ FeatureWeights.update_count w' = (FeatureWeights.update_count w + 2)%Z.
Proof.
  intros Hdim Hp Ht.
  destruct (dim_lookups n w true_label Hdim Ht) as (x & tot & last & Hx & Htot & Hl).
  unfold feature_updates. unfold mbind at 1, M_bind.
  rewrite (update_returns _ _ _ _ _ _ _ Hx Htot Hl).
  set (w1 := FeatureWeights.mk _ _ _ _).
  assert (FeatureWeights.dim n w1) as Hdim1.
  { destruct Hdim as (? & ? & ?). unfold FeatureWeights.dim, w1. simpl.
    by rewrite !length_insert. }
  destruct (dim_lookups n w1 pred Hdim1 Hp) as (x' & tot' & last' & Hx' & Htot' & Hl').
  rewrite (update_returns _ _ _ _ _ _ _ Hx' Htot' Hl').
  eexists. split; [done|]. simpl. split_and!.
  - destruct Hdim1 as (? & ? & ?). unfold FeatureWeights.dim. simpl.
    by rewrite !length_insert.
  - rewrite (insert_as_alter (λ x, fadd x (fmul (fneg lr) value)) _ _ _ Hx').
    unfold w1. simpl.
    by rewrite (insert_as_alter (λ x, fadd x (fmul lr value)) _ _ _ Hx).
  - done.
  - lia.
Qed.

Lemma feature_updates_outcome pred true_label lr value update_index w :
  outcome (feature_updates pred true_label lr value update_index w) = inr tt
  ∨ outcome (feature_updates pred true_label lr value update_index w)
    = inl IndexError.
Proof.
  unfold feature_updates. unfold mbind, M_bind.
  pose proof (update_outcome true_label (fmul lr value) update_index w) as Ho.
  destruct (FeatureWeights.update true_label _ update_index w)
    as [w1 [e|[]]]; simpl in *.
  - destruct Ho as [|Ho]; [done|]. by right.
  - apply update_outcome.
Qed.

Lemma feature_updates_dim n pred true_label lr value update_index w :
  FeatureWeights.dim n w →
  FeatureWeights.dim n
    (state_of (feature_updates pred true_label lr value update_index w)).
Proof.
  intros Hdim. unfold feature_updates. unfold mbind, M_bind.
  pose proof (update_dim n true_label (fmul lr value) update_index w Hdim) as H1.
  destruct (FeatureWeights.update true_label _ update_index w)
    as [w1 [e|[]]]; simpl in *; [done|].
  by apply update_dim.
Qed.

(** *** One iteration of the loop *)

(** The state an iteration leaves. *)
Local Abbreviation after_feature pred true_label lr :=
  (λ p fv, state_of (update_feature pred true_label lr fv p)).

Lemma update_feature_frame pred true_label lr fv p :
  let p' := after_feature pred true_label lr p fv in
  labels p' = labels p ∧ is_frozen p' = is_frozen p
  ∧ _label_indices p' = _label_indices p ∧ _min_update p' = _min_update p
  ∧ _update_index p' = _update_index p ∧ _true_labels p' = _true_labels p.
Proof.
  unfold update_feature, with_feature. unfold_m.
  by destruct (truthy fv.2).
Qed.

Lemma update_feature_weights pred true_label lr fv p f :
  weights (after_feature pred true_label lr p fv) !! f =
  if truthy fv.2 && bool_decide (f = fv.1) then
    Some (state_of (feature_updates pred true_label lr fv.2 (_update_index p)
                      (default (FeatureWeights.init (num_labels p))
                               (weights p !! f))))
  else weights p !! f.
Proof.
  unfold update_feature, with_feature. unfold_m.
  destruct (truthy fv.2); simpl; [|done].
  case_bool_decide as Hf.
  - subst f. by rewrite lookup_insert_eq.
  - by rewrite lookup_insert_ne.
Qed.

Lemma update_feature_outcome pred true_label lr fv p :
  outcome (update_feature pred true_label lr fv p) = inr tt
  ∨ outcome (update_feature pred true_label lr fv p) = inl IndexError.
Proof.
  unfold update_feature, with_feature. unfold_m.
  destruct (truthy fv.2); simpl; [|by left].
  apply feature_updates_outcome.
Qed.

Lemma update_feature_covered n pred true_label lr fv p :
  covered n p → covered n (after_feature pred true_label lr p fv).
Proof.
  intros [Hn Hdim]. split.
  - unfold num_labels. by rewrite (proj1 (update_feature_frame _ _ _ _ _)).
  - intros f w. rewrite update_feature_weights.
    destruct (truthy fv.2 && bool_decide (f = fv.1)); [|apply Hdim].
    intros [= <-]. apply feature_updates_dim.
    destruct (weights p !! f) as [w0|] eqn:Hw0; simpl.
    + by apply (Hdim f).
    + rewrite Hn. apply dim_init.
Qed.

Lemma update_feature_returns n pred true_label lr fv p :
  covered n p → (pred < n)%nat → (true_label < n)%nat →
  outcome (update_feature pred true_label lr fv p) = inr tt.
Proof.
  intros [Hn Hdim] Hp Ht. unfold update_feature, with_feature. unfold_m.
  destruct (truthy fv.2); simpl; [|done].
  set (w0 := default _ _).
  assert (FeatureWeights.dim n w0) as Hw0.
  { unfold w0. destruct (weights p !! fv.1) as [w|] eqn:Hw; simpl.
    - by apply (Hdim fv.1).
    - rewrite Hn. apply dim_init. }
  destruct (feature_updates_returns n pred true_label lr fv.2
              (_update_index p) w0 Hw0 Hp Ht) as (w' & -> & _). done.
Qed.

(** *** The loop *)

Lemma update_loop_returns n pred true_label lr features p :
  covered n p → (pred < n)%nat → (true_label < n)%nat →
  for_each (update_feature pred true_label lr) features p
  = (foldl (after_feature pred true_label lr) p features, inr tt)
  ∧ covered n (foldl (after_feature pred true_label lr) p features).
Proof.
  intros Hc Hp Ht.
  apply (for_each_returns (covered n)); [|done].
  intros fv s Hs. split; [|by apply update_feature_covered].
  pose proof (update_feature_returns n pred true_label lr fv s Hs Hp Ht) as Ho.
  unfold outcome in Ho. unfold state_of.
  destruct (update_feature pred true_label lr fv s) as [s' r].
  simpl in *. by rewrite Ho.
Qed.

Lemma update_loop_frame pred true_label lr features p :
  let p' := foldl (after_feature pred true_label lr) p features in
  labels p' = labels p ∧ is_frozen p' = is_frozen p
  ∧ _label_indices p' = _label_indices p ∧ _min_update p' = _min_update p
  ∧ _update_index p' = _update_index p ∧ _true_labels p' = _true_labels p.
Proof.
  revert p. induction features as [|fv features IH]; intros p; [done|].
  simpl. destruct (IH (after_feature pred true_label lr p fv))
    as (-> & -> & -> & -> & -> & ->).
  apply update_feature_frame.
Qed.

(** A feature that the vector does not name with a non-zero value is left
    alone. *)
Lemma update_loop_untouched pred true_label lr features p f :
  (∀ v, (f, v) ∈ features → truthy v = false) →
  weights (foldl (after_feature pred true_label lr) p features) !! f
  = weights p !! f.
Proof.
  revert p. induction features as [|[f' v'] features IH]; intros p Hf; [done|].
  simpl. rewrite IH by (intros v Hv; apply Hf; by right).
  rewrite update_feature_weights. simpl.
  destruct (truthy v') eqn:Hv'; [|done]. simpl.
  case_bool_decide as Heq; [|done]. subst f'.
  rewrite (Hf v') in Hv' by left. done.
Qed.

(** A feature named once, with a non-zero value, receives the two calls. *)
Lemma update_loop_touched pred true_label lr features p f v :
  NoDup features.*1 → (f, v) ∈ features → truthy v = true →
  weights (foldl (after_feature pred true_label lr) p features) !! f
  = Some (state_of (feature_updates pred true_label lr v (_update_index p)
                      (default (FeatureWeights.init (num_labels p))
                               (weights p !! f)))).
Proof.
  revert p. induction features as [|[f' v'] features IH]; intros p Hnd Hin Hv.
  { by apply elem_of_nil in Hin. }
  simpl in Hnd. apply NoDup_cons in Hnd as [Hf' Hnd].
  apply elem_of_cons in Hin as [[= <- <-]|Hin]; simpl.
  - rewrite update_loop_untouched.
    + rewrite update_feature_weights. simpl.
      by rewrite Hv, bool_decide_eq_true_2.
    + intros v0 Hv0. exfalso. apply Hf'.
      apply list_elem_of_fmap. by exists (f, v0).
  - rewrite (IH _ Hnd Hin Hv).
    destruct (update_feature_frame pred true_label lr (f', v') p)
      as (Hl & _ & _ & _ & Hi & _).
    rewrite Hi. unfold num_labels. rewrite Hl.
    rewrite update_feature_weights. simpl.
    rewrite bool_decide_eq_false_2, andb_false_r; [done|].
    intros ->. apply Hf'. apply list_elem_of_fmap. by exists (f', v).
Qed.

(** *** The method *)

Lemma update_frozen features pred true_label lr p :
  is_frozen p = true →
  update features pred true_label lr p = (p, inl AssertionError).
Proof. intros Hf. unfold update. unfold_m. by rewrite Hf. Qed.

Lemma update_unfrozen features pred true_label lr p :
  is_frozen p = false →
  update features pred true_label lr p =
  let g := grown (set_update_index (_update_index p + 1) p) in
  if decide (true_label < length (_true_labels g))%nat
  then for_each (update_feature pred true_label lr) features
         (before_loop true_label p)
  else (g, inl IndexError).
Proof.
  intros Hf. unfold update, before_loop, grown. unfold_m. rewrite Hf. simpl.
  by case_decide.
Qed.

Lemma before_loop_frame true_label p :
  labels (before_loop true_label p) = labels p
  ∧ is_frozen (before_loop true_label p) = is_frozen p
  ∧ _label_indices (before_loop true_label p) = _label_indices p
  ∧ _min_update (before_loop true_label p) = _min_update p
  ∧ _update_index (before_loop true_label p) = (_update_index p + 1)%Z.
Proof.
  unfold before_loop, grown, _update_num_labels. unfold_m. simpl. by case_decide.
Qed.

Lemma before_loop_weights true_label p :
  weights (before_loop true_label p) = weights (grown p).
Proof.
  unfold before_loop, grown, _update_num_labels. unfold_m. simpl.
  unfold num_labels. simpl. by case_decide.
Qed.

Lemma before_loop_true_labels true_label p :
  _true_labels (before_loop true_label p)
  = <[true_label := true]> (_true_labels (grown p)).
Proof.
  unfold before_loop, grown, _update_num_labels. unfold_m. simpl.
  unfold num_labels. simpl. by case_decide.
Qed.

Lemma before_loop_covered true_label p :
  wf p →
  covered (num_labels p) (before_loop true_label p)
  ∧ length (_true_labels (before_loop true_label p)) = num_labels p.
Proof.
  intros Hwf. destruct (wf_grown p Hwf) as [[_ Hdim] Hlen].
  rewrite before_loop_true_labels, length_insert. split; [|done].
  split.
  - unfold num_labels. by rewrite (proj1 (before_loop_frame _ _)).
  - rewrite before_loop_weights. by rewrite <- Hlen.
Qed.

(** The state [update] leaves on a trainable model, whether it returns or
    raises, is well formed. *)
Lemma update_wf features pred true_label lr p :
  wf p → wf (state_of (update features pred true_label lr p)).
Proof.
  intros Hwf. destruct (is_frozen p) eqn:Hf.
  { by rewrite update_frozen. }
  rewrite update_unfrozen by done. simpl. case_decide as Ht.
  - destruct (before_loop_covered true_label p Hwf) as [Hc Hlen].
    set (I := λ s : Perceptron.t F,
           covered (num_labels p) s
           ∧ length (_true_labels s) = num_labels p).
    assert (I (state_of (for_each (update_feature pred true_label lr)
                           features (before_loop true_label p)))) as [Hc' Hl'].
    { apply for_each_state_inv; [|done].
      intros fv s [Hs1 Hs2]. split.
      - by apply update_feature_covered.
      - by rewrite (proj2 (proj2 (proj2 (proj2 (proj2
            (update_feature_frame pred true_label lr fv s)))))). }
    destruct Hc' as [Hn' Hd']. split; [lia|]. by rewrite Hl'.
  - simpl.
    assert (wf (set_update_index (_update_index p + 1) p)) as Hwf' by done.
    apply (wf_grown _ Hwf').
Qed.

(** On a trainable model the counter is incremented once, whether the call
    returns or raises. *)
Lemma update_index_incremented features pred true_label lr p :
  is_frozen p = false →
  _update_index (state_of (update features pred true_label lr p))
  = (_update_index p + 1)%Z.
Proof.
  intros Hf. rewrite update_unfrozen by done. cbv zeta. case_decide.
  - apply (for_each_state_inv
             (λ s, _update_index s = (_update_index p + 1)%Z)).
    + intros fv s <-. apply update_feature_frame.
    + apply before_loop_frame.
  - apply (grown_frame (set_update_index (_update_index p + 1) p)).
Qed.

(** [update] fails the assertion on frozen models only. *)
Lemma update_no_assertion features pred true_label lr p :
  is_frozen p = false →
  outcome (update features pred true_label lr p) ≠ inl AssertionError.
Proof.
  intros Hf. rewrite update_unfrozen by done. simpl. case_decide; [|done].
  intros (fv & s & _ & Ho)%for_each_raises.
  destruct (update_feature_outcome pred true_label lr fv s) as [Hr|Hr];
    rewrite Hr in Ho; done.
Qed.

(** On a well-formed trainable model and label positions in range,
    [update] returns.  It increments the counter once; a feature named with
    a non-zero value receives the two calls of [feature_updates] at the new
    counter value, on its stored weights or on fresh ones; no other feature
    changes beyond the grow-check. *)
Lemma update_returns_effect features pred true_label lr p :
  wf p → is_frozen p = false →
  (pred < num_labels p)%nat → (true_label < num_labels p)%nat →
  NoDup features.*1 →
  ∃ p', update features pred true_label lr p = (p', inr tt)
    ∧ _update_index p' = (_update_index p + 1)%Z
    ∧ (∀ f v, (f, v) ∈ features → truthy v = true →
         let w0 := default (FeatureWeights.init (num_labels p))
                           (weights (grown p) !! f) in
         ∃ w', weights p' !! f = Some w'
           ∧ feature_updates pred true_label lr v (_update_index p') w0
             = (w', inr tt)
           ∧ FeatureWeights.weights w' =
               alter (λ x, fadd x (fmul (fneg lr) v)) pred
                 (alter (λ x, fadd x (fmul lr v)) true_label
                    (FeatureWeights.weights w0))
           ∧ FeatureWeights.update_count w'
             = (FeatureWeights.update_count w0 + 2)%Z)
    ∧ (∀ f, (∀ v, (f, v) ∈ features → truthy v = false) →
         weights p' !! f = weights (grown p) !! f).
Proof.
  intros Hwf Hf Hp Ht Hnd.
  destruct (before_loop_covered true_label p Hwf) as [Hc Hlen].
  destruct (update_loop_returns _ pred true_label lr features _ Hc Hp Ht)
    as [Hrun Hc'].
  destruct (update_loop_frame pred true_label lr features
              (before_loop true_label p)) as (Hl & _ & _ & _ & Hi & _).
  destruct (before_loop_frame true_label p) as (Hl0 & _ & _ & _ & Hi0).
  exists (foldl (after_feature pred true_label lr)
            (before_loop true_label p) features). split_and!.
  - rewrite update_unfrozen by done. cbv zeta. rewrite decide_True; [done|].
    destruct (wf_grown (set_update_index (_update_index p + 1) p) Hwf)
      as [_ Hg]. rewrite Hg. done.
  - by rewrite Hi, Hi0.
  - intros f v Hin Hv w0.
    rewrite (update_loop_touched _ _ _ _ _ f v Hnd Hin Hv).
    rewrite Hi, Hi0, before_loop_weights.
    unfold num_labels at 1. rewrite Hl0. fold (num_labels p). fold w0.
    assert (FeatureWeights.dim (num_labels p) w0) as Hw0.
    { unfold w0. destruct (weights (grown p) !! f) as [w|] eqn:Hw; simpl.
      - destruct Hc as [_ Hd]. rewrite before_loop_weights in Hd.
        by apply (Hd f).
      - apply dim_init. }
    destruct (feature_updates_returns _ pred true_label lr v
                (_update_index p + 1) w0 Hw0 Hp Ht)
      as (w' & Hw' & _ & Hws & _ & Hcount).
    exists w'. rewrite Hw'. by split_and!.
  - intros f Hno. rewrite update_loop_untouched by done.
    by rewrite before_loop_weights.
Qed.
End UpdateFacts.

(** ** Perceptron.score *)

Section ScoreFacts.
Context {F : Type} `{Scalar F}.
Implicit Types (p : Perceptron.t F) (w : FeatureWeights.t F) (f : string).
Implicit Types (features : list (string * F)) (scores : list F).
Import Perceptron.

Lemma score_unfold features p :
  score features p =
  let p1 := if is_frozen p then p else grown p in
  match score_loop p1 (replicate (num_labels p1) fzero) features with
  | inr scores => (p1, score_dict p1 scores)
  | inl e => (p1, inl e)
  end.
Proof.
  unfold score, lift. unfold_m. cbv zeta.
  destruct (is_frozen p); simpl;
    by destruct (score_loop _ _ features).
Qed.

Lemma below_min_update_grown p f :
  below_min_update (grown p) f = below_min_update p f.
Proof.
  unfold below_min_update.
  pose proof (grown_update_count p f) as Hc.
  destruct (grown_frame p) as (_ & _ & _ & -> & _).
  destruct (weights (grown p) !! f), (weights p !! f); simpl in Hc;
    congruence.
Qed.

(** One iteration on a trainable model: a feature below the threshold
    leaves the scores as they are. *)
Lemma score_feature_below p scores f v :
  is_frozen p = false → below_min_update p f = true →
  score_feature p scores (f, v) = inr scores.
Proof.
  intros Hf Hb. unfold score_feature, below_min_update in *. simpl.
  destruct (truthy v); simpl; [|done].
  destruct (weights p !! f) as [w|]; [|done]. by rewrite Hf, Hb.
Qed.

(** One iteration on a frozen model: a stored feature of non-zero value
    contributes, whatever its count. *)
Lemma score_feature_frozen p scores f v w :
  is_frozen p = true → truthy v = true → weights p !! f = Some w →
  score_feature p scores (f, v)
  = iadd_broadcast scores (map (fmul v) (FeatureWeights.weights w)).
Proof.
  intros Hf Hv Hw. unfold score_feature. simpl. by rewrite Hv, Hw, Hf.
Qed.

Lemma score_loop_filter p scores features :
  is_frozen p = false →
  score_loop p scores
    (filter (λ fv, below_min_update p fv.1 = false) features)
  = score_loop p scores features.
Proof.
  intros Hf. revert scores.
  induction features as [|[f v] features IH]; intros scores; [done|].
  rewrite filter_cons. simpl. case_decide as Hb; simpl.
  - destruct (score_feature p scores (f, v)); [done|]. apply IH.
  - apply not_false_is_true in Hb.
    by rewrite (score_feature_below p scores f v Hf Hb).
Qed.

(** On a frozen model the loop reads the weight vectors only. *)
Lemma score_loop_frozen p p' scores features :
  is_frozen p = true → is_frozen p' = true →
  (∀ f, FeatureWeights.weights <$> weights p !! f
        = FeatureWeights.weights <$> weights p' !! f) →
  score_loop p scores features = score_loop p' scores features.
Proof.
  intros Hf Hf' Hw. revert scores.
  induction features as [|[f v] features IH]; intros scores; [done|].
  simpl. replace (score_feature p' scores (f, v))
    with (score_feature p scores (f, v)).
  { destruct (score_feature p scores (f, v)); [done|]. apply IH. }
  unfold score_feature. simpl. rewrite Hf, Hf'. simpl.
  destruct (truthy v); simpl; [|done].
  specialize (Hw f).
  destruct (weights p !! f), (weights p' !! f); simpl in Hw;
    congruence.
Qed.

(** Features below the threshold may as well be absent from the vector. *)
Lemma score_filters_below features p :
  is_frozen p = false →
  score (filter (λ fv, below_min_update p fv.1 = false) features) p
  = score features p.
Proof.
  intros Hf. rewrite !score_unfold, Hf. cbv zeta.
  assert (is_frozen (grown p) = false) as Hg.
  { by rewrite (proj1 (proj2 (grown_frame p))). }
  rewrite <- (score_loop_filter (grown p) _ features Hg).
  erewrite (list_filter_iff _ (λ fv, below_min_update (grown p) fv.1 = false));
    [done|].
  intros fv. by rewrite below_min_update_grown.
Qed.

(** The scores of a frozen model depend on its labels, its remapping and
    its weight vectors, and on nothing else: no count, no threshold. *)
Lemma score_frozen_reads_weights features p p' :
  is_frozen p = true → is_frozen p' = true →
  num_labels p = num_labels p' → _label_indices p = _label_indices p' →
  (∀ f, FeatureWeights.weights <$> weights p !! f
        = FeatureWeights.weights <$> weights p' !! f) →
  outcome (score features p) = outcome (score features p').
Proof.
  intros Hf Hf' Hn Hi Hw. rewrite !score_unfold, Hf, Hf'. cbv zeta.
  rewrite Hn, (score_loop_frozen p p' _ features Hf Hf' Hw).
  destruct (score_loop p' _ features) as [e|scores]; [done|].
  unfold outcome, score_dict. simpl. by rewrite Hi.
Qed.
End ScoreFacts.

(** ** FeatureWeights.finalize *)

Section FeatureFinalizeFacts.
Context {F : Type} `{Scalar F}.
Implicit Types (w : FeatureWeights.t F) (labels : list nat) (n : nat).
Import FeatureWeights.

(** The batch synchronisation on positions inside the vectors: it returns,
    keeps the weights and the count, and, when the positions are distinct,
    synchronises each listed cell and leaves the others. *)
Lemma _update_totals_list_returns n labels update_index w :
  dim n w → Forall (λ i, i < n)%nat labels →
  ∃ w', _update_totals_list labels update_index w = (w', inr tt)
    ∧ dim n w' ∧ weights w' = weights w ∧ update_count w' = update_count w
    ∧ (∀ i, i ∉ labels → _totals w' !! i = _totals w !! i
                         ∧ _last_update w' !! i = _last_update w !! i)
    ∧ (NoDup labels → ∀ i tot x last,
         i ∈ labels → _totals w !! i = Some tot → weights w !! i = Some x →
         _last_update w !! i = Some last →
         _totals w' !! i = Some (synced tot x last update_index)
         ∧ _last_update w' !! i = Some update_index).
Proof.
  intros (Hw & Ht & Hl) Hlab. unfold _update_totals_list.
  destruct (gather_returns (_totals w) labels) as (tots & -> & Hlt & Htots).
  { by rewrite Ht. }
  destruct (gather_returns (weights w) labels) as (xs & -> & Hlx & Hxs).
  { by rewrite Hw. }
  destruct (gather_returns (_last_update w) labels) as (ls & -> & Hll & Hls).
  { by rewrite Hl. }
  eexists. split; [done|]. simpl. split_and!.
  - unfold dim. simpl. by rewrite !length_scatter.
  - done.
  - done.
  - intros i Hi. by rewrite !scatter_lookup_other.
  - intros Hnd i tot x last Hi Htot Hx Hlast.
    apply list_elem_of_lookup in Hi as [k Hk].
    assert (i < n)%nat as Hin.
    { eapply Forall_forall in Hlab; [done|].
      apply list_elem_of_lookup. by exists k. }
    split.
    + apply (scatter_lookup_listed _ _ _ k); try done.
      * rewrite length_zip_with, length_zip. lia.
      * lia.
      * rewrite lookup_zip_with, (Htots k i Hk), Htot. simpl.
        rewrite lookup_zip_with, (Hxs k i Hk), Hx. simpl.
        by rewrite (Hls k i Hk), Hlast.
    + apply (scatter_lookup_listed _ _ _ k); try done.
      * by rewrite length_replicate.
      * lia.
      * apply lookup_replicate_2. by eapply lookup_lt_Some.
Qed.

Lemma _update_totals_list_dim n labels update_index w :
  dim n w → dim n (state_of (_update_totals_list labels update_index w)).
Proof.
  intros Hd. unfold _update_totals_list.
  destruct (gather (_totals w) labels), (gather (weights w) labels),
    (gather (_last_update w) labels); try done.
  destruct Hd as (? & ? & ?). unfold dim. simpl.
  by rewrite !length_scatter.
Qed.

Lemma _update_totals_list_update_count labels update_index w :
  update_count (state_of (_update_totals_list labels update_index w))
  = update_count w.
Proof.
  unfold _update_totals_list.
  by destruct (gather (_totals w) labels), (gather (weights w) labels),
    (gather (_last_update w) labels).
Qed.

Lemma finalize_state labels update_index average w :
  state_of (finalize update_index labels average w)
  = state_of (_update_totals_list labels update_index w).
Proof.
  unfold finalize. unfold_m.
  destruct (_update_totals_list labels update_index w) as [w' [e|[]]];
    simpl; [done|].
  by destruct (gather _ _).
Qed.

Lemma finalize_dim n labels update_index average w :
  dim n w → dim n (state_of (finalize update_index labels average w)).
Proof. rewrite finalize_state. apply _update_totals_list_dim. Qed.

Lemma finalize_update_count labels update_index average w :
  update_count (state_of (finalize update_index labels average w))
  = update_count w.
Proof. rewrite finalize_state. apply _update_totals_list_update_count. Qed.

(** [finalize] on positions inside the vectors returns a bare instance with
    one weight per listed position: the synchronised total divided by the
    step when averaging, the live weight otherwise. *)
Lemma finalize_returns n labels update_index average w :
  dim n w → Forall (λ i, i < n)%nat labels →
  ∃ w' out,
    finalize update_index labels average w = (w', inr (of_weights out))
    ∧ length out = length labels
    ∧ ∀ k i, labels !! k = Some i →
        out !! k =
        if average
        then (λ x, fdiv x (of_int update_index)) <$> _totals w' !! i
        else weights w !! i.
Proof.
  intros Hd Hlab.
  destruct (_update_totals_list_returns n labels update_index w Hd Hlab)
    as (w' & Hrun & (Hw' & Ht' & Hl') & Hws & _).
  unfold finalize. unfold_m. rewrite Hrun.
  destruct average.
  - destruct (gather_returns (_totals w') labels) as (tots & -> & Hlt & Htots).
    { by rewrite Ht'. }
    eexists _, _. split; [done|]. split; [by rewrite length_map|].
    intros k i Hk. by rewrite list_lookup_fmap, (Htots k i Hk).
  - destruct (gather_returns (weights w') labels) as (xs & -> & Hlx & Hxs).
    { by rewrite Hw'. }
    eexists _, _. split; [done|]. split; [done|].
    intros k i Hk. by rewrite (Hxs k i Hk), Hws.
Qed.

Lemma finalize_raises labels update_index average w e :
  outcome (finalize update_index labels average w) = inl e → e = IndexError.
Proof.
  unfold finalize, _update_totals_list. unfold_m.
  destruct (gather (_totals w) labels), (gather (weights w) labels),
    (gather (_last_update w) labels); simpl; try by intros [= <-].
  destruct (gather _ labels) eqn:Hg; simpl; [|done].
  intros [= <-]. by eapply gather_raises.
Qed.
End FeatureFinalizeFacts.

(** ** Perceptron.finalize: the kept labels *)

Section KeptLabels.
Context {F : Type} `{Scalar F}.
Implicit Types (p : Perceptron.t F).
Import Perceptron.

Local Abbreviation keep :=
  (λ x : nat * (bool * string), if x.2.1 then Some (x.1, x.2.2) else None).

Lemma kept_from_spec (j : nat) (z : list (bool * string)) :
  let kept := omap keep (zip (seq j (length z)) z) in
  StronglySorted lt kept.*1
  ∧ ∀ i l, (i, l) ∈ kept ↔ ∃ k, i = (j + k)%nat ∧ z !! k = Some (true, l).
Proof.
  revert j. induction z as [|[b l0] z IH]; intros j; simpl.
  { split; [constructor|]. intros i l. split; [by intros ?%elem_of_nil|].
    by intros (k & _ & ?). }
  destruct (IH (S j)) as [Hsort Hmem]. simpl in Hsort, Hmem.
  assert (∀ i l, (i, l) ∈ omap keep (zip (seq (S j) (length z)) z)
                 ∨ (b = true ∧ i = j ∧ l = l0)
                 ↔ ∃ k, i = (j + k)%nat ∧ ((b, l0) :: z) !! k = Some (true, l))
    as Hcons.
  { intros i l. rewrite Hmem. split.
    - intros [(k & -> & Hk)|(-> & -> & ->)].
      + exists (S k). split; [lia|done].
      + exists 0%nat. split; [lia|done].
    - intros ([|k] & -> & Hk); simpl in Hk.
      + right. injection Hk as -> ->. split_and!; [done|lia|done].
      + left. exists k. split; [lia|done]. }
  destruct b; simpl.
  - split.
    + constructor; [done|]. apply Forall_forall. intros i Hi.
      apply list_elem_of_fmap in Hi as ([i' l] & -> & Hil).
      apply Hmem in Hil as (k & -> & _). simpl. lia.
    + intros i l. rewrite <- Hcons, elem_of_cons. split.
      * intros [[= -> ->]|?]; [by right|by left].
      * intros [?|(_ & -> & ->)]; [by right|by left].
  - split; [done|]. intros i l. rewrite <- Hcons. split; [by left|].
    by intros [?|(? & _)].
Qed.

(** The kept positions are exactly those with a set flag and a label. *)
Lemma elem_of_kept_labels p i l :
  (i, l) ∈ kept_labels p
  ↔ _true_labels p !! i = Some true ∧ labels p !! i = Some l.
Proof.
  unfold kept_labels, enumerate.
  destruct (kept_from_spec 0 (zip (_true_labels p) (labels p))) as [_ ->].
  split.
  - intros (k & -> & Hk). by apply lookup_zip_Some in Hk.
  - intros Hk. exists i. split; [done|]. by apply lookup_zip_Some.
Qed.

(** They are listed in increasing order. *)
Lemma kept_labels_sorted p : StronglySorted lt (kept_labels p).*1.
Proof. apply (kept_from_spec 0 (zip (_true_labels p) (labels p))). Qed.

Lemma kept_labels_NoDup p : NoDup (kept_labels p).*1.
Proof.
  pose proof (kept_labels_sorted p) as Hs.
  induction Hs as [|i idx _ IH Hall]; constructor; [|done].
  intros Hi. eapply Forall_forall in Hall; [|done]. lia.
Qed.

Lemma kept_labels_lookup p k i :
  (kept_labels p).*1 !! k = Some i →
  _true_labels p !! i = Some true
  ∧ (kept_labels p).*2 !! k = labels p !! i.
Proof.
  rewrite !list_lookup_fmap.
  destruct (kept_labels p !! k) as [[i' l]|] eqn:Hk; [|done].
  simpl. intros [= ->].
  assert ((i, l) ∈ kept_labels p) as Hin.
  { apply list_elem_of_lookup. by exists k. }
  apply elem_of_kept_labels in Hin as [? ->]. done.
Qed.

Lemma kept_labels_bound p :
  Forall (λ i, i < length (_true_labels p))%nat (kept_labels p).*1.
Proof.
  apply Forall_forall. intros i Hi.
  apply list_elem_of_fmap in Hi as ([i' l] & -> & Hil).
  apply elem_of_kept_labels in Hil as [Ht _]. by eapply lookup_lt_Some.
Qed.

(** No flag set, no kept label. *)
Lemma kept_labels_nil p :
  Forall (λ b, b = false) (_true_labels p) → kept_labels p = [].
Proof.
  intros Hall. destruct (kept_labels p) as [|[i l] kept] eqn:Hk; [done|].
  assert ((i, l) ∈ kept_labels p) as Hin by (rewrite Hk; left).
  apply elem_of_kept_labels in Hin as [Ht _].
  eapply Forall_forall in Hall; [|by eapply list_elem_of_lookup_2]. done.
Qed.
End KeptLabels.

(** ** Perceptron.finalize: the weights and the method *)

Section FinalizeFacts.
Context {F : Type} `{Scalar F}.
Implicit Types (p q : Perceptron.t F) (w : FeatureWeights.t F) (f : string).
Implicit Types (m st out : gmap string (FeatureWeights.t F)).
Import Perceptron.

(** The comprehension of [finalize], in terms of the features it visits.  Whatever its
    outcome, it synchronises stored features in place and keeps their
    counts and dimensions; when it returns, the output holds exactly the
    features that pass the threshold, each as [FeatureWeights.finalize]
    returned it. *)
Lemma finalize_fold_spec n update_index min_update kept average m0 m :
  finalize_fold_post n update_index min_update kept average m0
    (map_fold (finalize_step update_index min_update kept average)
       (m0, inr ∅) m) m.
Proof.
  apply (map_fold_weak_ind
           (finalize_fold_post n update_index min_update kept average m0)).
  { split_and!; simpl; [done|done| |by eexists].
    intros out [= <-]. split.
    - intros f. rewrite lookup_empty. split; [by intros [? ?]|].
      by intros (? & ? & _).
    - intros f w'. by rewrite lookup_empty. }
  intros f w m' [st res] Hfresh (IHdim & IHcount & IHout & IHret).
  unfold finalize_fold_post, finalize_step in *. simpl in *.
  assert (∀ g, FeatureWeights.update_count <$> m0 !! g
               = FeatureWeights.update_count <$> <[f:=w]> m' !! g
               ∨ <[f:=w]> m' !! g = None →
               g ≠ f →
               FeatureWeights.update_count <$> m0 !! g
               = FeatureWeights.update_count <$> m' !! g ∨ m' !! g = None)
    as Hother.
  { intros g Hg Hne. by rewrite lookup_insert_ne in Hg. }
  destruct res as [e|out]; simpl.
  { split_and!.
    - intros H0 [_ Hm']%map_Forall_insert; [|done]. by apply IHdim.
    - intros g Hg. apply IHcount. destruct (decide (g = f)) as [->|Hne].
      + by right.
      + by apply Hother.
    - done.
    - intros [_ Hm']%map_Forall_insert; [|done]. intros Hk.
      by destruct (IHret Hm' Hk). }
  destruct (IHout out eq_refl) as [IHdom IHval].
  case_decide as Hpass; simpl.
  - split_and!.
    + intros H0 [Hw Hm']%map_Forall_insert; [|done].
      apply map_Forall_insert_2; [by apply finalize_dim|by apply IHdim].
    + intros g Hg. destruct (decide (g = f)) as [->|Hne].
      * rewrite lookup_insert_eq in *. simpl.
        rewrite finalize_update_count. by destruct Hg as [->|?].
      * rewrite lookup_insert_ne by done. apply IHcount. by apply Hother.
    + intros out'.
      destruct (outcome (FeatureWeights.finalize update_index kept average w))
        as [e|wf'] eqn:Hfin; [done|]. intros [= <-]. split.
      * intros g. destruct (decide (g = f)) as [->|Hne].
        -- rewrite !lookup_insert_eq. split; [by exists w|by eexists].
        -- rewrite !lookup_insert_ne by done. apply IHdom.
      * intros g w'. destruct (decide (g = f)) as [->|Hne].
        -- rewrite !lookup_insert_eq. intros [= <-]. by exists w.
        -- rewrite !lookup_insert_ne by done. apply IHval.
    + intros [Hw Hm']%map_Forall_insert; [|done]. intros Hk.
      destruct (finalize_returns n kept update_index average w Hw Hk)
        as (w1 & o & Hr & _).
      unfold outcome. rewrite Hr. by eexists.
  - split_and!.
    + intros H0 [_ Hm']%map_Forall_insert; [|done]. by apply IHdim.
    + intros g Hg. apply IHcount. destruct (decide (g = f)) as [->|Hne].
      * by right.
      * by apply Hother.
    + intros out' [= <-]. split.
      * intros g. destruct (decide (g = f)) as [->|Hne].
        -- rewrite lookup_insert_eq. rewrite IHdom, Hfresh. split.
           ++ by intros (? & ? & _).
           ++ intros (? & [= <-] & ?). done.
        -- rewrite lookup_insert_ne by done. apply IHdom.
      * intros g w' Hg. destruct (decide (g = f)) as [->|Hne].
        -- destruct (IHval f w' Hg) as (? & ? & _). congruence.
        -- rewrite lookup_insert_ne by done. by apply IHval.
    + intros [_ Hm']%map_Forall_insert; [|done]. intros Hk.
      by apply IHret.
Qed.

Lemma finalize_fold_raises update_index min_update kept average m0 m e :
  (map_fold (finalize_step update_index min_update kept average)
     (m0, inr ∅) m).2 = inl e → e = IndexError.
Proof.
  revert e.
  apply (map_fold_weak_ind (λ r _, ∀ e, r.2 = inl e → e = IndexError));
    [done|].
  intros f w m' [st res] _ IH e. unfold finalize_step. simpl in *.
  destruct res as [e'|out]; simpl; [apply IH|].
  case_decide; simpl; [|done].
  destruct (outcome (FeatureWeights.finalize update_index kept average w))
    as [e'|w'] eqn:Hfin; [|done].
  intros [= <-]. by eapply finalize_raises.
Qed.

(** *** The method *)

Lemma finalize_is_frozen average p :
  is_frozen p = true → finalize average p = (p, inl AssertionError).
Proof. intros Hf. unfold finalize. unfold_m. by rewrite Hf. Qed.

Local Arguments grown : simpl never.
Local Arguments kept_labels : simpl never.

Lemma finalize_unfrozen average p :
  is_frozen p = false →
  finalize average p =
  let g := grown p in
  match kept_labels g with
  | [] => (g, inl ValueError)
  | kept =>
      let r := finalize_weights kept.*1 average g in
      (r.1, match r.2 with
            | inr ws => inr (init kept.*2 1 (Some ws) (Some kept.*1))
            | inl e => inl e
            end)
  end.
Proof.
  intros Hf. unfold finalize.
  unfold mbind, M_bind, mret, M_ret, get, raise. rewrite Hf.
  change (_update_num_labels p) with (grown p, @inr exn unit tt) at 1.
  cbv beta iota zeta.
  destruct (kept_labels (grown p)) as [|kl kept]; [done|].
  by destruct (finalize_weights _ average (grown p)) as [g' [e|ws]].
Qed.

Lemma finalize_weights_frame kept average p :
  let p' := state_of (finalize_weights kept average p) in
  labels p' = labels p ∧ is_frozen p' = is_frozen p
  ∧ _label_indices p' = _label_indices p ∧ _min_update p' = _min_update p
  ∧ _update_index p' = _update_index p ∧ _true_labels p' = _true_labels p.
Proof. done. Qed.

(** The state [finalize] leaves: the grow-check has run, and stored
    features may have been synchronised; flags and labels are those of the
    grow-check. *)
Lemma finalize_state_frame average p :
  let p' := state_of (finalize average p) in
  labels p' = labels p ∧ is_frozen p' = is_frozen p
  ∧ _true_labels p' = _true_labels (if is_frozen p then p else grown p).
Proof.
  destruct (is_frozen p) eqn:Hf.
  { by rewrite finalize_is_frozen. }
  rewrite finalize_unfrozen by done. cbv zeta.
  destruct (grown_frame p) as (Hl & Hfr & _).
  destruct (kept_labels (grown p)); simpl; by rewrite ?Hl, ?Hfr.
Qed.

Lemma finalize_state_wf average p :
  wf p → wf (state_of (finalize average p)).
Proof.
  intros Hwf. destruct (is_frozen p) eqn:Hf.
  { by rewrite finalize_is_frozen. }
  rewrite finalize_unfrozen by done. cbv zeta.
  destruct (wf_grown p Hwf) as [Hg Hlen].
  destruct (kept_labels (grown p)) as [|kl kept]; [done|].
  destruct Hg as [Hle Hdim]. split; [done|]. simpl.
  by apply (finalize_fold_spec (length (_true_labels (grown p)))).
Qed.

Lemma finalize_no_assertion average p :
  is_frozen p = false →
  outcome (finalize average p) ≠ inl AssertionError.
Proof.
  intros Hf. rewrite finalize_unfrozen by done. cbv zeta.
  destruct (kept_labels (grown p)) as [|kl kept]; [done|].
  unfold outcome. simpl.
  destruct (map_fold _ _ _).2 as [e|ws] eqn:Hfold; [|done].
  apply finalize_fold_raises in Hfold as ->. done.
Qed.

(** What a returned model holds. *)
Lemma finalize_returns_model average p q :
  outcome (finalize average p) = inr q →
  is_frozen p = false
  ∧ kept_labels (grown p) ≠ []
  ∧ is_frozen q = true
  ∧ labels q = (kept_labels (grown p)).*2
  ∧ _label_indices q = Some (kept_labels (grown p)).*1
  ∧ outcome (finalize_weights (kept_labels (grown p)).*1 average (grown p))
    = inr (weights q).
Proof.
  destruct (is_frozen p) eqn:Hf.
  { by rewrite finalize_is_frozen. }
  rewrite finalize_unfrozen by done. cbv zeta.
  destruct (kept_labels (grown p)) as [|kl kept]; [done|].
  unfold outcome. simpl.
  destruct (map_fold _ _ _).2 as [e|ws] eqn:Hfold; [done|].
  intros [= <-]. by split_and!.
Qed.

(** On a well-formed trainable model with a kept label, [finalize]
    returns a model. *)
Lemma finalize_returns_when_kept average p :
  wf p → is_frozen p = false → kept_labels (grown p) ≠ [] →
  ∃ q, outcome (finalize average p) = inr q.
Proof.
  intros Hwf Hf Hk. rewrite finalize_unfrozen by done. cbv zeta.
  destruct (wf_grown p Hwf) as [[Hle Hdim] Hlen].
  destruct (kept_labels (grown p)) as [|kl kept] eqn:Hkept; [done|].
  unfold outcome, finalize_weights. cbn [fst snd].
  destruct (finalize_fold_spec (length (_true_labels (grown p)))
              (_update_index (grown p)) (_min_update (grown p))
              (kl :: kept).*1 average (weights (grown p))
              (weights (grown p))) as (_ & _ & _ & Hret).
  destruct Hret as [ws ->]; [done| |by eexists].
  rewrite <- Hkept. apply kept_labels_bound.
Qed.
End FinalizeFacts.

(** ** Training sessions *)

Section SessionFacts.
Context {F : Type} `{Scalar F}.
Implicit Types (p q : Perceptron.t F) (c : Perceptron.call F).
Implicit Types (calls : list (Perceptron.call F)).
Import Perceptron.

Lemma score_state features p :
  state_of (score features p) = if is_frozen p then p else grown p.
Proof.
  rewrite score_unfold. cbv zeta. fold (grown p).
  by destruct (score_loop _ _ features).
Qed.

Lemma grown_flag_set p i :
  _true_labels (grown p) !! i = Some true → _true_labels p !! i = Some true.
Proof.
  rewrite grown_true_labels. intros Hi.
  apply lookup_app_Some in Hi as [Hi|[_ Hi]]; [done|].
  by apply lookup_replicate in Hi as [? _].
Qed.

Lemma update_state_flags features pred true_label lr p i :
  _true_labels (state_of (update features pred true_label lr p)) !! i
  = Some true →
  _true_labels p !! i = Some true ∨ i = true_label.
Proof.
  destruct (is_frozen p) eqn:Hf.
  { rewrite update_frozen by done. by left. }
  rewrite update_unfrozen by done. cbv zeta. case_decide as Ht.
  - assert (_true_labels (state_of
              (for_each (update_feature pred true_label lr) features
                 (before_loop true_label p)))
            = _true_labels (before_loop true_label p)) as ->.
    { apply (for_each_state_inv
               (λ s, _true_labels s = _true_labels (before_loop true_label p)));
        [|done].
      intros fv s <-. apply update_feature_frame. }
    rewrite before_loop_true_labels.
    destruct (decide (i = true_label)) as [->|Hne]; [by right|].
    rewrite list_lookup_insert_ne by done. intros Hi. left.
    by apply grown_flag_set.
  - intros Hi. left. by apply grown_flag_set in Hi.
Qed.

Lemma finalize_state_flags average p i :
  _true_labels (state_of (finalize average p)) !! i = Some true →
  _true_labels p !! i = Some true.
Proof.
  destruct (finalize_state_frame average p) as (_ & _ & ->).
  destruct (is_frozen p); [done|apply grown_flag_set].
Qed.

(** A flag that a call sets is the true label of an [update]. *)
Lemma exec_call_flags p c i :
  _true_labels (exec_call p c) !! i = Some true →
  _true_labels p !! i = Some true ∨ i ∈ true_args [c].
Proof.
  destruct c as [features pred true_label lr|features|l|average]; simpl.
  - intros [?| ->]%update_state_flags; [by left|right; by left].
  - rewrite score_state. destruct (is_frozen p); [by left|].
    intros ?%grown_flag_set. by left.
  - by left.
  - intros ?%finalize_state_flags. by left.
Qed.

Lemma true_args_app calls calls' :
  true_args (calls ++ calls') = true_args calls ++ true_args calls'.
Proof. apply omap_app. Qed.

Lemma run_snoc calls c p : run (calls ++ [c]) p = exec_call (run calls p) c.
Proof. unfold run. by rewrite foldl_app. Qed.

(** The flags set in the course of a session were set at its start or are
    true labels of its [update] calls. *)
Lemma run_flags calls p i :
  _true_labels (run calls p) !! i = Some true →
  _true_labels p !! i = Some true ∨ i ∈ true_args calls.
Proof.
  induction calls as [|c calls IH] using rev_ind.
  { by left. }
  rewrite run_snoc, true_args_app.
  intros [Hi|Hi]%exec_call_flags.
  - destruct (IH Hi) as [?|?]; [by left|right]. apply elem_of_app. by left.
  - right. apply elem_of_app. by right.
Qed.

Lemma exec_call_wf p c : wf p → wf (exec_call p c).
Proof.
  intros Hwf.
  destruct c as [features pred true_label lr|features|l|average]; simpl.
  - by apply update_wf.
  - rewrite score_state. destruct (is_frozen p); [done|].
    by apply wf_grown.
  - by apply wf_append_label.
  - by apply finalize_state_wf.
Qed.

Lemma run_wf calls p : wf p → wf (run calls p).
Proof.
  intros Hwf. induction calls as [|c calls IH] using rev_ind; [done|].
  rewrite run_snoc. by apply exec_call_wf.
Qed.

Lemma exec_call_is_frozen p c : is_frozen (exec_call p c) = is_frozen p.
Proof.
  destruct c as [features pred true_label lr|features|l|average]; simpl.
  - destruct (is_frozen p) eqn:Hf.
    { by rewrite update_frozen. }
    rewrite update_unfrozen by done. cbv zeta. case_decide.
    + apply (for_each_state_inv (λ s, is_frozen s = false)).
      * intros fv s <-. apply update_feature_frame.
      * by rewrite (proj1 (proj2 (before_loop_frame true_label p))).
    + simpl.
      by rewrite (proj1 (proj2 (grown_frame
                   (set_update_index (_update_index p + 1) p)))).
  - rewrite score_state. destruct (is_frozen p) eqn:Hf; [done|].
    by rewrite (proj1 (proj2 (grown_frame p))).
  - done.
  - apply finalize_state_frame.
Qed.

Lemma run_is_frozen calls p : is_frozen (run calls p) = is_frozen p.
Proof.
  induction calls as [|c calls IH] using rev_ind; [done|].
  by rewrite run_snoc, exec_call_is_frozen.
Qed.
End SessionFacts.

(** ** The score dictionary *)

Section ScoreDictFacts.
Context {F : Type} `{Scalar F}.
Import Perceptron.

Lemma gather_elem_of {A} (v : list A) idx xs x :
  gather v idx = inr xs → x ∈ xs → x ∈ v.
Proof.
  revert xs. induction idx as [|i idx IH]; intros xs; simpl.
  { intros [= <-]. by intros ?%elem_of_nil. }
  destruct (v !! i) as [y|] eqn:Hy; [|done].
  destruct (gather v idx) as [e|ys]; [done|]. intros [= <-].
  intros [->|Hx]%elem_of_cons.
  - by eapply list_elem_of_lookup_2.
  - by eapply IH.
Qed.

Lemma foldl_insert_lookup_other {V} (kvs : list (nat * V)) (m : gmap nat V) i :
  i ∉ kvs.*1 → foldl (λ m kv, <[kv.1 := kv.2]> m) m kvs !! i = m !! i.
Proof.
  revert m. induction kvs as [|[k v] kvs IH]; intros m Hi; [done|].
  simpl in *. rewrite IH.
  - apply lookup_insert_ne. intros ->. apply Hi. by left.
  - intros Hin. apply Hi. by right.
Qed.

Lemma dict_of_lookup_None {V} (kvs : list (nat * V)) i :
  i ∉ kvs.*1 → dict_of kvs !! i = None.
Proof.
  intros Hi. unfold dict_of. by rewrite foldl_insert_lookup_other.
Qed.

(** With distinct keys, a key finds the value paired with it. *)
Lemma dict_of_zip_lookup {V} (keys : list nat) (vals : list V) k j :
  NoDup keys → keys !! k = Some j →
  dict_of (zip keys vals) !! j = vals !! k.
Proof.
  unfold dict_of. generalize (∅ : gmap nat V) (lookup_empty (M:=gmap nat) (A:=V) j).
  intros m Hm Hnd. revert m Hm vals k.
  induction Hnd as [|j0 keys Hj0 Hnd IH]; intros m Hm vals k Hk; [done|].
  destruct vals as [|v0 vals]; simpl.
  { by rewrite lookup_nil. }
  destruct k as [|k]; simpl in *.
  - injection Hk as ->. rewrite foldl_insert_lookup_other.
    + apply lookup_insert_eq.
    + intros Hin. apply Hj0.
      apply list_elem_of_fmap in Hin as ([j' v'] & -> & Hin).
      by apply elem_of_zip_l in Hin.
  - apply IH; [|done]. rewrite lookup_insert_ne; [done|].
    intros ->. apply Hj0. by eapply list_elem_of_lookup_2.
Qed.

Lemma dict_of_enumerate_lookup {V} (vals : list V) k :
  dict_of (enumerate vals) !! k = vals !! k.
Proof.
  unfold enumerate. destruct (decide (k < length vals)%nat) as [Hk|Hk].
  - apply dict_of_zip_lookup; [apply NoDup_seq|]. by apply lookup_seq_lt.
  - rewrite dict_of_lookup_None.
    + symmetry. apply lookup_ge_None. lia.
    + intros Hin. apply list_elem_of_fmap in Hin as ([k' v'] & -> & Hin).
      apply elem_of_zip_l, elem_of_seq in Hin. simpl in Hk. lia.
Qed.

(** Gathering the first [n] positions of a list gives its first [n]
    entries. *)
Lemma gather_seq_lookup {V} (idx : list V) n keys k :
  gather idx (seq 0 n) = inr keys →
  length keys = n ∧ keys !! k = if decide (k < n)%nat then idx !! k else None.
Proof.
  intros Hg. pose proof (gather_inr_bounds _ _ _ Hg) as Hb.
  destruct (gather_returns idx (seq 0 n) Hb) as (xs & Hxs & Hlen & Hlook).
  rewrite Hg in Hxs. injection Hxs as <-. rewrite length_seq in Hlen.
  split; [done|]. case_decide as Hk.
  - apply (Hlook k k). by apply lookup_seq_lt.
  - apply lookup_ge_None. lia.
Qed.

(** A frozen model with a remapping scores under remapped keys only. *)
Lemma score_keys_remapped features (q : Perceptron.t F) idx d i :
  is_frozen q = true → _label_indices q = Some idx →
  outcome (score features q) = inr d → i ∉ idx → d !! i = None.
Proof.
  intros Hf Hidx Hd Hi. rewrite score_unfold, Hf in Hd. cbv zeta in Hd.
  destruct (score_loop q _ features) as [e|scores]; [done|].
  unfold outcome, score_dict in Hd. simpl in Hd. rewrite Hidx in Hd.
  destruct (gather idx (seq 0 (length scores))) as [e|keys] eqn:Hg; [done|].
  injection Hd as <-. apply dict_of_lookup_None.
  intros Hin. apply Hi.
  apply list_elem_of_fmap in Hin as ([k x] & -> & Hkx).
  apply elem_of_zip_l in Hkx. by eapply gather_elem_of.
Qed.
End ScoreDictFacts.

(** * The specification's properties *)

Section Claims.
Context {F : Type} `{Scalar F}.
Implicit Types (p q : Perceptron.t F) (w : FeatureWeights.t F) (f : string).
Implicit Types (features : list (string * F)).
Import Perceptron.

(** C5 (threshold pruning).  When [finalize] returns a model, its weights
    mapping holds a feature exactly when the feature was stored with
    [update_count >= _min_update]: no feature below the threshold appears,
    every feature at or above it is kept. *)
Theorem finalize_threshold_pruning average p q f :
  outcome (finalize average p) = inr q →
  is_Some (weights q !! f)
  ↔ (∃ w, weights p !! f = Some w
          ∧ (_min_update p ≤ FeatureWeights.update_count w)%Z).
Proof.
  intros Hq.
  destruct (finalize_returns_model average p q Hq)
    as (Hf & _ & _ & _ & _ & Hws).
  unfold outcome, finalize_weights in Hws. simpl in Hws.
  destruct (finalize_fold_spec 0 (_update_index (grown p))
              (_min_update (grown p)) (kept_labels (grown p)).*1 average
              (weights (grown p)) (weights (grown p)))
    as (_ & _ & Hout & _).
  destruct (Hout _ Hws) as [Hdom _]. rewrite Hdom.
  destruct (grown_frame p) as (_ & _ & _ & -> & _).
  pose proof (grown_update_count p f) as Hc.
  split.
  - intros (w' & Hw' & Hpass). rewrite Hw' in Hc.
    destruct (weights p !! f) as [w|]; [|done].
    exists w. split; [done|]. simpl in Hc. injection Hc as Hc. lia.
  - intros (w & Hw & Hpass). rewrite Hw in Hc.
    destruct (weights (grown p) !! f) as [w'|]; [|done].
    exists w'. split; [done|]. simpl in Hc. injection Hc as Hc. lia.
Qed.

(** C6 (label pruning).  Take a session on a fresh model and let [finalize]
    return the model [q].  Its [_label_indices] list, in increasing order,
    the original positions of its labels: dense position [k] of [q] holds
    the label of original position [idx[k]], whose flag is set.  A position
    [i] that was never the true label of an [update] call of the session
    is not listed, and no score dictionary of [q] has the key [i]. *)
Theorem finalize_label_pruning ls min_update calls average q i :
  let p := run calls (init ls min_update None None) in
  outcome (finalize average p) = inr q →
  ∃ idx,
    _label_indices q = Some idx
    ∧ StronglySorted lt idx
    ∧ length (labels q) = length idx
    ∧ (∀ k j, idx !! k = Some j →
         labels q !! k = labels p !! j ∧ is_Some (labels p !! j)
         ∧ j ∈ true_args calls)
    ∧ (i ∉ true_args calls →
         (i ∉ idx)
         ∧ (∀ features d,
              outcome (score features q) = inr d → d !! i = None)).
Proof.
  intros p Hq.
  destruct (finalize_returns_model average p q Hq)
    as (Hf & _ & Hfq & Hlq & Hiq & _).
  assert (∀ j, j ∈ (kept_labels (grown p)).*1 → j ∈ true_args calls)
    as Hkept.
  { intros j Hj. apply list_elem_of_fmap in Hj as ([j' l] & -> & Hjl).
    apply elem_of_kept_labels in Hjl as [Hflag _]. simpl.
    apply grown_flag_set in Hflag.
    apply run_flags in Hflag as [Hinit|?]; [|done].
    simpl in Hinit. by apply lookup_replicate in Hinit as [? _]. }
  exists (kept_labels (grown p)).*1. split_and!.
  - done.
  - apply kept_labels_sorted.
  - by rewrite Hlq, !length_fmap.
  - intros k j Hk. rewrite Hlq.
    destruct (kept_labels_lookup (grown p) k j Hk) as [_ Hl].
    rewrite Hl, (proj1 (grown_frame p)). split_and!; [done| |].
    + rewrite <- (proj1 (grown_frame p)), <- Hl.
      apply lookup_lt_is_Some. rewrite length_fmap.
      apply lookup_lt_Some in Hk. by rewrite length_fmap in Hk.
    + apply Hkept. by eapply list_elem_of_lookup_2.
  - intros Hi.
    assert (i ∉ (kept_labels (grown p)).*1) as Hni by (intros ?%Hkept; done).
    split; [done|]. intros features d Hd.
    by eapply score_keys_remapped.
Qed.

(** C7 (growth safety).  A label is appended to a well-formed trainable
    model; the next [score] or [update] runs the grow-check.  Every stored
    feature is still stored, with its count; its three vectors now have one
    cell per label, hold their old values at the old positions, and zero
    at the new ones. *)
Theorem label_growth_keeps_stored_state p l f w :
  wf p → is_frozen p = false → weights p !! f = Some w →
  let p' := grown (append_label l p) in
  (∀ features, state_of (score features (append_label l p)) = p')
  ∧ (∀ true_label,
       weights (before_loop true_label (append_label l p)) = weights p')
  ∧ num_labels p' = S (num_labels p)
  ∧ ∃ w', weights p' !! f = Some w'
      ∧ FeatureWeights.update_count w' = FeatureWeights.update_count w
      ∧ FeatureWeights.dim (num_labels p') w'
      ∧ (∀ i, (i < length (FeatureWeights.weights w))%nat →
           FeatureWeights.weights w' !! i = FeatureWeights.weights w !! i
           ∧ FeatureWeights._totals w' !! i = FeatureWeights._totals w !! i
           ∧ FeatureWeights._last_update w' !! i
             = FeatureWeights._last_update w !! i)
      ∧ (∀ i, (length (FeatureWeights.weights w) ≤ i < num_labels p')%nat →
           FeatureWeights.weights w' !! i = Some fzero
           ∧ FeatureWeights._totals w' !! i = Some fzero
           ∧ FeatureWeights._last_update w' !! i = Some 0%Z).
Proof.
  intros [Hlen Hdim] Hf Hw p'.
  assert (num_labels (append_label l p) = S (num_labels p)) as Hn.
  { unfold num_labels, append_label. simpl. rewrite length_app. simpl. lia. }
  destruct (Hdim f w Hw) as (Hw1 & Hw2 & Hw3).
  split_and!.
  - intros features. rewrite score_state. simpl. by rewrite Hf.
  - intros true_label. apply before_loop_weights.
  - unfold p'. by rewrite num_labels_grown.
  - unfold p'. rewrite num_labels_grown, Hn, grown_weights, Hn.
    change (_true_labels (append_label l p)) with (_true_labels p).
    change (weights (append_label l p)) with (weights p).
    rewrite decide_True by lia. rewrite Hw. simpl.
    eexists. split; [done|]. split; [done|]. split; [apply resize_dim|].
    simpl. split.
    + intros i Hi. rewrite !resize_vec_lookup_old by lia. done.
    + intros i Hi. rewrite !resize_vec_lookup_new by lia. done.
Qed.

(** C9 (frozen models reject training).  On a frozen model [update] and
    [finalize] raise AssertionError and leave the instance as it was; on a
    trainable model neither raises it. *)
Theorem frozen_rejects_update_and_finalize p features pred true_label lr
    average :
  (is_frozen p = true →
     update features pred true_label lr p = (p, inl AssertionError)
     ∧ finalize average p = (p, inl AssertionError))
  ∧ (is_frozen p = false →
       outcome (update features pred true_label lr p) ≠ inl AssertionError
       ∧ outcome (finalize average p) ≠ inl AssertionError).
Proof.
  split; intros Hf; split.
  - by apply update_frozen.
  - by apply finalize_is_frozen.
  - by apply update_no_assertion.
  - by apply finalize_no_assertion.
Qed.

(** C10 (finalize with no true label).  On a trainable model none of whose
    flags is set, [finalize] returns no model: it raises ValueError, after
    the grow-check.  This is the case after any session without an
    [update] call, and so on a fresh model. *)
Theorem finalize_without_true_label_raises average :
  (∀ p, is_frozen p = false →
        Forall (λ b, b = false) (_true_labels p) →
        finalize average p = (grown p, inl ValueError))
  ∧ (∀ ls min_update calls,
       true_args calls = [] →
       outcome (finalize average
                  (run calls (init (F:=F) ls min_update None None)))
       = inl ValueError).
Proof.
  assert (∀ p, is_frozen p = false →
               Forall (λ b, b = false) (_true_labels p) →
               finalize average p = (grown p, inl ValueError)) as Hgen.
  { intros p Hf Hflags. rewrite finalize_unfrozen by done. cbv zeta.
    rewrite kept_labels_nil; [done|].
    rewrite grown_true_labels. apply Forall_app. split; [done|].
    apply Forall_replicate. done. }
  split; [done|]. intros ls min_update calls Hno.
  rewrite Hgen; [done|by rewrite run_is_frozen|].
  apply Forall_forall. intros b Hb.
  apply list_elem_of_lookup in Hb as [i Hi].
  destruct b; [|done].
  apply run_flags in Hi as [Hi|Hi].
  - simpl in Hi. by apply lookup_replicate in Hi as [? _].
  - rewrite Hno in Hi. by apply elem_of_nil in Hi.
Qed.
End Claims.

(** ** The scenario and the rules of [update] and [score] *)

(** C3 (the update rule).  On a well-formed trainable model and label
    positions in range, [update] returns and increments [_update_index]
    once.  Every feature named with a non-zero value receives exactly the
    two calls of [feature_updates], both at the new [_update_index]:
    [learning_rate * value] is added to the true label's weight, then
    [-learning_rate * value] to the predicted label's; other features are
    left as the grow-check leaves them.  The counter of a trainable model
    is incremented once even when the call raises.  In the scenario the
    first call leaves the weights [-1.0, 1.0] for f1. *)
Theorem update_rule :
  (∀ (F : Type) (S : Scalar F) (p : Perceptron.t F) features pred true_label
     lr,
     Perceptron.wf p → Perceptron.is_frozen p = false →
     (pred < Perceptron.num_labels p)%nat →
     (true_label < Perceptron.num_labels p)%nat →
     NoDup features.*1 →
     ∃ p', Perceptron.update features pred true_label lr p = (p', inr tt)
       ∧ Perceptron._update_index p'
         = (Perceptron._update_index p + 1)%Z
       ∧ (∀ f v, (f, v) ∈ features → truthy v = true →
            let w0 := default (FeatureWeights.init (Perceptron.num_labels p))
                        (Perceptron.weights (Perceptron.grown p) !! f) in
            ∃ w', Perceptron.weights p' !! f = Some w'
              ∧ Perceptron.feature_updates pred true_label lr v
                  (Perceptron._update_index p') w0 = (w', inr tt)
              ∧ FeatureWeights.weights w' =
                  alter (λ x, fadd x (fmul (fneg lr) v)) pred
                    (alter (λ x, fadd x (fmul lr v)) true_label
                       (FeatureWeights.weights w0))
              ∧ FeatureWeights.update_count w'
                = (FeatureWeights.update_count w0 + 2)%Z)
       ∧ (∀ f, (∀ v, (f, v) ∈ features → truthy v = false) →
            Perceptron.weights p' !! f
            = Perceptron.weights (Perceptron.grown p) !! f))
  ∧ (∀ (F : Type) (S : Scalar F) (p : Perceptron.t F) features pred
       true_label lr,
       Perceptron.is_frozen p = false →
       Perceptron._update_index
         (state_of (Perceptron.update features pred true_label lr p))
       = (Perceptron._update_index p + 1)%Z)
  ∧ FeatureWeights.weights
      <$> Perceptron.weights Scenario.after_first !! "f1"%string
    = Some [(-1)%float; 1%float].
Proof.
  split_and!.
  - intros F S p features pred true_label lr.
    apply update_returns_effect.
  - intros F S p features pred true_label lr.
    apply update_index_incremented.
  - vm_compute. reflexivity.
Qed.

(** The general rule of C3 at the first call of the scenario. *)
Lemma update_rule_witness :
  ∃ p', Perceptron.update Scenario.f1 0 1 1%float Scenario.start
        = (p', inr tt)
    ∧ Perceptron._update_index p' = 1%Z.
Proof.
  destruct (proj1 update_rule float _ Scenario.start Scenario.f1 0%nat 1%nat
              1%float) as (p' & Hrun & Hidx & _).
  - apply wf_init.
  - reflexivity.
  - vm_compute. lia.
  - vm_compute. lia.
  - apply NoDup_singleton.
  - exists p'. split; [exact Hrun|exact Hidx].
Defined.

(** C8 (the min-update filter of [score]).  On a trainable model the
    features stored with [update_count < _min_update] contribute nothing:
    one of them leaves the running scores as they are, and the call gives
    what it gives on the vector without them.  On a frozen model a stored
    feature of non-zero value always contributes, and the scores do not
    depend on counts or threshold.  In the scenario, after the two calls,
    [score({"f1": 1.0})] is [{0: -1.0, 1: 1.0}]. *)
Theorem score_min_update_filter :
  (∀ (F : Type) (S : Scalar F) (p : Perceptron.t F) features scores f v,
     Perceptron.is_frozen p = false →
     (Perceptron.below_min_update p f = true →
      Perceptron.score_feature p scores (f, v) = inr scores)
     ∧ Perceptron.score
         (filter (λ fv, Perceptron.below_min_update p fv.1 = false) features)
         p
       = Perceptron.score features p)
  ∧ (∀ (F : Type) (S : Scalar F) (p p' : Perceptron.t F) features scores f v
       w,
       Perceptron.is_frozen p = true →
       (truthy v = true → Perceptron.weights p !! f = Some w →
        Perceptron.score_feature p scores (f, v)
        = Perceptron.iadd_broadcast scores
            (map (fmul v) (FeatureWeights.weights w)))
       ∧ (Perceptron.is_frozen p' = true →
          Perceptron.num_labels p = Perceptron.num_labels p' →
          Perceptron._label_indices p = Perceptron._label_indices p' →
          (∀ g, FeatureWeights.weights <$> Perceptron.weights p !! g
                = FeatureWeights.weights <$> Perceptron.weights p' !! g) →
          outcome (Perceptron.score features p)
          = outcome (Perceptron.score features p')))
  ∧ outcome (Perceptron.score Scenario.f1 Scenario.after_second)
    = inr (<[1%nat := 1%float]> (<[0%nat := (-1)%float]> ∅)).
Proof.
  split_and!.
  - intros F S p features scores f v Hf. split.
    + intros Hb. by apply score_feature_below.
    + by apply score_filters_below.
  - intros F S p p' features scores f v w Hf. split.
    + intros Hv Hw. by apply score_feature_frozen.
    + intros Hf' Hn Hi Hw. by apply score_frozen_reads_weights.
  - vm_compute. reflexivity.
Qed.

(** ** Lazy totals against the reference sum, in exact arithmetic *)

Section AveragingFacts.
Context {F : Type} `{ExactScalar F}.
Implicit Types (w : FeatureWeights.t F) (calls : list (Averaging.call F)).
Implicit Types (c : Averaging.call F) (i n : nat) (T : Z).
Import Averaging.

Lemma exact_ring_theory :
  ring_theory (R:=F) fzero (of_int 1) fadd fmul (λ x y, fadd x (fneg y))
    fneg eq.
Proof.
  constructor; intros.
  - apply fadd_0_l.
  - apply fadd_comm.
  - apply fadd_assoc.
  - apply fmul_1_l.
  - apply fmul_comm.
  - apply fmul_assoc.
  - apply fmul_add_l.
  - reflexivity.
  - apply fadd_neg_r.
Qed.

Add Ring exact_ring : exact_ring_theory.

(** Synchronising at [s], adding [v], and synchronising at [T] is
    synchronising at [T] and adding [v] for the [T - s] steps it was held. *)
Lemma synced_then_added tot x last s v T :
  FeatureWeights.synced (FeatureWeights.synced tot x last s) (fadd x v) s T
  = fadd (FeatureWeights.synced tot x last T) (fmul v (of_int (T - s))).
Proof.
  unfold FeatureWeights.synced.
  replace (T - last)%Z with ((s - last) + (T - s))%Z by lia.
  rewrite of_int_add. ring.
Qed.

Lemma weight_at_snoc calls c i t :
  weight_at (calls ++ [c]) i t =
  if decide (label c = i ∧ (step c ≤ t)%Z)
  then fadd (weight_at calls i t) (value c)
  else weight_at calls i t.
Proof. unfold weight_at. by rewrite foldl_app. Qed.

(** A later call adds its value for each of the steps it was held. *)
Lemma held_sum_steps_snoc calls c i k :
  (0 ≤ step c)%Z →
  held_sum_steps (calls ++ [c]) i k =
  if decide (label c = i)
  then fadd (held_sum_steps calls i k)
            (fmul (value c) (of_int (Z.max 0 (Z.of_nat k - step c))))
  else held_sum_steps calls i k.
Proof.
  intros Hs. induction k as [|k IH]; simpl.
  - case_decide; [|done]. rewrite Z.max_l by lia. rewrite of_int_0. ring.
  - rewrite IH, weight_at_snoc. destruct (decide (label c = i)) as [Hl|Hl].
    + destruct (decide (step c ≤ Z.of_nat k)%Z) as [Hk|Hk].
      * rewrite decide_True by done.
        replace (Z.max 0 (Z.of_nat (S k) - step c))
          with (Z.max 0 (Z.of_nat k - step c) + 1)%Z by lia.
        rewrite of_int_add. ring.
      * rewrite decide_False by (intros [_ ?]; done).
        replace (Z.max 0 (Z.of_nat (S k) - step c))
          with (Z.max 0 (Z.of_nat k - step c)) by lia.
        ring.
    + rewrite decide_False by (intros [? _]; done). done.
Qed.

Lemma held_sum_snoc calls c i T :
  (0 ≤ step c ≤ T)%Z →
  held_sum (calls ++ [c]) i T =
  if decide (label c = i)
  then fadd (held_sum calls i T) (fmul (value c) (of_int (T - step c)))
  else held_sum calls i T.
Proof.
  intros Hs. unfold held_sum. rewrite held_sum_steps_snoc by lia.
  case_decide; [|done]. do 3 f_equal. lia.
Qed.

Lemma held_sum_nil i T : held_sum (F:=F) [] i T = fzero.
Proof.
  unfold held_sum. induction (Z.to_nat T) as [|k IH]; simpl; [done|].
  rewrite IH. unfold weight_at. simpl. ring.
Qed.

Lemma lazy_invariant_init n : lazy_invariant n [] (FeatureWeights.init n).
Proof.
  split; [apply dim_init|]. intros i Hi.
  exists fzero, fzero, 0%Z. simpl.
  rewrite !lookup_replicate_2 by done. split_and!; try done.
  intros T _. rewrite held_sum_nil. unfold FeatureWeights.synced. ring.
Qed.

Lemma lazy_invariant_update n calls c w :
  lazy_invariant n calls w → (label c < n)%nat → (0 ≤ step c)%Z →
  ∃ w', FeatureWeights.update (label c) (value c) (step c) w = (w', inr tt)
    ∧ lazy_invariant n (calls ++ [c]) w'.
Proof.
  intros [Hdim Hinv] Hl Hs.
  destruct (Hinv _ Hl) as (x & tot & last & Hx & Htot & Hlast & Hsum).
  rewrite (update_returns _ _ _ _ _ _ _ Hx Htot Hlast).
  eexists. split; [done|]. split.
  - destruct Hdim as (? & ? & ?). unfold FeatureWeights.dim. simpl.
    by rewrite !length_insert.
  - intros i Hi. simpl. destruct (decide (i = label c)) as [->|Hne].
    + destruct Hdim as (Hd1 & Hd2 & Hd3).
      eexists _, _, _.
      rewrite !list_lookup_insert_eq by lia. split_and!; try done.
      intros T [HT Hc%Forall_inv]%Forall_app.
      rewrite held_sum_snoc by lia. rewrite decide_True by done.
      rewrite synced_then_added. by rewrite Hsum.
    + destruct (Hinv _ Hi) as (x' & tot' & last' & Hx' & Htot' & Hlast' & Hsum').
      exists x', tot', last'.
      rewrite !list_lookup_insert_ne by done. split_and!; try done.
      intros T [HT Hc%Forall_inv]%Forall_app.
      rewrite held_sum_snoc by lia. rewrite decide_False by done.
      by apply Hsum'.
Qed.

Lemma run_calls_invariant n calls :
  Forall (λ c, (label c < n)%nat ∧ (0 ≤ step c)%Z) calls →
  ∃ w, run_calls calls (FeatureWeights.init n) = (w, inr tt)
       ∧ lazy_invariant n calls w.
Proof.
  induction calls as [|c calls IH] using rev_ind; intros Hall.
  { eexists. split; [done|]. apply lazy_invariant_init. }
  apply Forall_app in Hall as [Hcalls Hc%Forall_inv].
  destruct (IH Hcalls) as (w & Hrun & Hinv).
  destruct (lazy_invariant_update n calls c w Hinv) as (w' & Hup & Hinv');
    [lia..|].
  exists w'. split; [|done].
  unfold run_calls in *. rewrite for_each_app, Hrun, for_each_cons, Hup.
  done.
Qed.

(** C1, as amended (lazy totals are exact in exact arithmetic).  The
    scalars form a commutative ring.  A fresh instance receives any
    sequence of [update] calls, with labels in range and steps between 0
    and [update_index], and is finalized at [update_index] with averaging.
    The run returns; for every kept label [i], [_totals[i]] after the forced
    synchronisation is the sum of [weights[i]] held over each unit step from
    step 0 to [update_index], and the finalized weight is that sum divided
    by [update_index]. *)
Theorem lazy_totals_exact n calls T kept :
  Forall (λ c, (label c < n)%nat ∧ (0 ≤ step c ≤ T)%Z) calls →
  NoDup kept → Forall (λ i, i < n)%nat kept →
  ∃ w' out,
    run_and_finalize calls T kept true (FeatureWeights.init n)
    = (w', inr (FeatureWeights.of_weights out))
    ∧ length out = length kept
    ∧ ∀ k i, kept !! k = Some i →
        FeatureWeights._totals w' !! i = Some (held_sum calls i T)
        ∧ out !! k = Some (fdiv (held_sum calls i T) (of_int T)).
Proof.
  intros Hcalls Hnd Hkept.
  destruct (run_calls_invariant n calls) as (w & Hrun & Hdim & Hinv).
  { eapply Forall_impl; [done|]. simpl. intros c [? ?]. split; [done|lia]. }
  destruct (_update_totals_list_returns n kept T w Hdim Hkept)
    as (w1 & Hsync & _ & _ & _ & _ & Hlisted).
  destruct (finalize_returns n kept T true w Hdim Hkept)
    as (w' & out & Hfin & Hlen & Hout).
  assert (w' = w1) as ->.
  { pose proof (finalize_state kept T true w) as Hst.
    rewrite Hfin, Hsync in Hst. done. }
  exists w1, out. split_and!.
  - unfold run_and_finalize. unfold mbind, M_bind. by rewrite Hrun, Hfin.
  - done.
  - intros k i Hk.
    assert (i ∈ kept) as Hi by (by eapply list_elem_of_lookup_2).
    assert (i < n)%nat as Hlt by (by eapply Forall_forall in Hkept).
    destruct (Hinv i Hlt) as (x & tot & last & Hx & Htot & Hlast & Hsum).
    destruct (Hlisted Hnd i tot x last Hi Htot Hx Hlast) as [Ht' _].
    rewrite (Hout k i Hk), Ht'. simpl.
    rewrite Hsum; [done|].
    eapply Forall_impl; [done|]. simpl. intros c [_ ?]. lia.
Qed.
End AveragingFacts.

(** ** A correct prediction, in exact arithmetic *)

Section SameLabel.
Context {F : Type} `{ExactScalar F}.
Implicit Types (p : Perceptron.t F) (w : FeatureWeights.t F) (f : string).
Implicit Types (features : list (string * F)).
Import Perceptron.

Add Ring exact_ring_same_label : (exact_ring_theory (F:=F)).

(** What the grow-check does to a stored feature of a well-formed model. *)
Lemma grown_stored p f w :
  wf p → weights p !! f = Some w →
  ∃ wg, weights (grown p) !! f = Some wg
    ∧ FeatureWeights.update_count wg = FeatureWeights.update_count w
    ∧ ∀ i x, FeatureWeights.weights w !! i = Some x →
             FeatureWeights.weights wg !! i = Some x.
Proof.
  intros [Hlen Hdim] Hw. rewrite grown_weights, Hw.
  case_decide; simpl; [|by exists w].
  eexists. split; [done|]. split; [done|]. simpl. intros i x Hx.
  destruct (Hdim f w Hw) as (Hd & _).
  rewrite resize_vec_lookup_old; [done|lia|by eapply lookup_lt_Some].
Qed.

Lemma grown_missing p f :
  weights p !! f = None → weights (grown p) !! f = None.
Proof. intros Hw. rewrite grown_weights, Hw. by case_decide. Qed.

(** Adding and then subtracting at the same position restores a vector. *)
Lemma alter_add_sub (l : list F) (x : F) i :
  alter (λ y, fadd y (fneg x)) i (alter (λ y, fadd y x) i l) = l.
Proof.
  rewrite list_alter_alter_eq. apply list_alter_id. intros y. simpl. ring.
Qed.

Lemma named_or_not features f :
  (∃ v, (f, v) ∈ features ∧ truthy v = true)
  ∨ (∀ v, (f, v) ∈ features → truthy v = false).
Proof.
  induction features as [|[f' v'] features IH].
  { right. intros v Hv. by apply elem_of_nil in Hv. }
  destruct (decide (f' = f ∧ truthy v' = true)) as [[-> Hv']|Hno].
  { left. exists v'. split; [left|done]. }
  destruct IH as [(v & Hv & Ht)|Hnone].
  - left. exists v. split; [by right|done].
  - right. intros v [[= -> ->]|Hv]%elem_of_cons; [|by apply Hnone].
    destruct (truthy v') eqn:Hv'; [|done]. by destruct Hno.
Qed.

(** [update(features, p, p)] in exact arithmetic: it returns; every stored
    weight keeps its value; a feature it creates holds zero weights; every
    feature named with a non-zero value is counted twice. *)
Lemma update_same_label_exact features label lr p :
  wf p → is_frozen p = false → (label < num_labels p)%nat →
  NoDup features.*1 →
  ∃ p', update features label label lr p = (p', inr tt)
    ∧ (∀ f w i x,
         weights p !! f = Some w → FeatureWeights.weights w !! i = Some x →
         ∃ w', weights p' !! f = Some w'
               ∧ FeatureWeights.weights w' !! i = Some x)
    ∧ (∀ f w' i x,
         weights p !! f = None → weights p' !! f = Some w' →
         FeatureWeights.weights w' !! i = Some x → x = fzero)
    ∧ (∀ f v, (f, v) ∈ features → truthy v = true →
         FeatureWeights.update_count <$> weights p' !! f
         = Some (default 0%Z (FeatureWeights.update_count <$> weights p !! f)
                 + 2)%Z).
Proof.
  intros Hwf Hf Hl Hnd.
  destruct (update_returns_effect features label label lr p Hwf Hf Hl Hl Hnd)
    as (p' & Hrun & _ & Htouched & Huntouched).
  pose proof (named_or_not features) as Hcases.
  assert (∀ f v, (f, v) ∈ features → truthy v = true →
            ∃ w', weights p' !! f = Some w'
              ∧ FeatureWeights.weights w'
                = FeatureWeights.weights
                    (default (FeatureWeights.init (num_labels p))
                             (weights (grown p) !! f))
              ∧ FeatureWeights.update_count w'
                = (FeatureWeights.update_count
                     (default (FeatureWeights.init (num_labels p))
                              (weights (grown p) !! f)) + 2)%Z) as Htouched'.
  { intros f v Hin Hv.
    destruct (Htouched f v Hin Hv) as (w' & Hw' & _ & Hws & Hcount).
    exists w'. split; [done|]. split; [|done]. rewrite Hws.
    replace (fmul (fneg lr) v) with (fneg (fmul lr v)) by ring.
    apply alter_add_sub. }
  exists p'. split; [done|]. split_and!.
  - intros f w i x Hw Hx.
    destruct (grown_stored p f w Hwf Hw) as (wg & Hwg & _ & Hvals).
    destruct (Hcases f) as [(v & Hin & Hv)|Hnone].
    + destruct (Htouched' f v Hin Hv) as (w' & Hw' & Hws & _).
      exists w'. split; [done|]. rewrite Hws, Hwg. simpl. by apply Hvals.
    + exists wg. rewrite (Huntouched f Hnone). split; [done|by apply Hvals].
  - intros f w' i x Hw Hw' Hx.
    pose proof (grown_missing p f Hw) as Hg.
    destruct (Hcases f) as [(v & Hin & Hv)|Hnone].
    + destruct (Htouched' f v Hin Hv) as (w1 & Hw1 & Hws & _).
      rewrite Hw' in Hw1. injection Hw1 as <-.
      rewrite Hws, Hg in Hx. simpl in Hx.
      by apply lookup_replicate in Hx as [-> _].
    + rewrite (Huntouched f Hnone), Hg in Hw'. done.
  - intros f v Hin Hv.
    destruct (Htouched' f v Hin Hv) as (w' & Hw' & _ & Hcount).
    rewrite Hw'. simpl. rewrite Hcount. f_equal. f_equal.
    destruct (weights p !! f) as [w|] eqn:Hw.
    + destruct (grown_stored p f w Hwf Hw) as (wg & -> & Hc & _). done.
    + by rewrite (grown_missing p f Hw).
Qed.
End SameLabel.

(** ** Persistence *)

Section PersistenceFacts.
Context {F : Type} `{Scalar F}.
Implicit Types (p : Perceptron.t F) (features : list (string * F)).
Import Perceptron.

Lemma score_loop_ext p p' scores features :
  weights p = weights p' → is_frozen p = is_frozen p' →
  (is_frozen p = true ∨ _min_update p = _min_update p') →
  score_loop p scores features = score_loop p' scores features.
Proof.
  intros Hw Hf Hm. revert scores.
  induction features as [|fv features IH]; intros scores; [done|].
  simpl. replace (score_feature p' scores fv) with (score_feature p scores fv).
  { destruct (score_feature p scores fv); [done|apply IH]. }
  unfold score_feature. rewrite <- Hw, <- Hf.
  destruct (negb (truthy fv.2)); [done|].
  destruct (weights p !! fv.1) as [w|]; [|done].
  destruct Hm as [Hm|Hm]; [by rewrite Hm|by rewrite Hm].
Qed.

(** What [load] leaves in a fresh instance. *)
Lemma load_save_fresh p :
  load (save p) (init [] 1 None None) =
  (mk (labels p) 0 (weights p) (is_frozen p) None
      (if is_frozen p then 1%Z else _min_update p)
      (if is_frozen p then 0%Z else _update_index p)
      (if is_frozen p then [] else _true_labels p), inr tt).
Proof.
  unfold load, save. unfold_m. simpl. by destruct (is_frozen p).
Qed.

Lemma score_outcome features p :
  outcome (score features p) =
  match score_vector features p with
  | inr scores => score_dict p scores
  | inl e => inl e
  end.
Proof.
  rewrite score_unfold. unfold score_vector. cbv zeta.
  destruct (score_loop _ _ features) as [e|scores]; [done|].
  unfold outcome, score_dict. simpl.
  destruct (is_frozen p); [done|].
  by rewrite (proj1 (proj2 (proj2 (grown_frame p)))).
Qed.

Lemma score_vector_ext features p p' :
  labels p = labels p' → weights p = weights p' →
  is_frozen p = is_frozen p' →
  (is_frozen p = true
   ∨ _min_update p = _min_update p' ∧ _true_labels p = _true_labels p') →
  score_vector features p = score_vector features p'.
Proof.
  intros Hl Hw Hf Ht. unfold score_vector. cbv zeta. rewrite <- Hf.
  destruct (is_frozen p) eqn:Hfp.
  - unfold num_labels. rewrite Hl. apply score_loop_ext; [done|congruence|].
    by left.
  - destruct Ht as [?|[Hm Ht]]; [done|].
    unfold num_labels. rewrite !(proj1 (grown_frame _)), Hl.
    apply score_loop_ext.
    + apply map_eq. intros f. rewrite !grown_weights.
      unfold num_labels. by rewrite Hl, Ht, Hw.
    + rewrite !(proj1 (proj2 (grown_frame _))). congruence.
    + right. by rewrite !(proj1 (proj2 (proj2 (proj2 (grown_frame _))))).
Qed.

(** C4, as amended (round trip).  [save] then [load] into a fresh
    instance always returns, and reproduces the labels, the weights and
    the mode; the reloaded model accumulates the same score vector for any
    feature vector.  Its [score] output is identical to the original's
    when the original has no remapping ([_label_indices] is None: every
    trainable model of a session, and a frozen model built without one).
    For a model with a remapping [idx] (a finalized one), the reloaded
    model reports under its dense position [k] the score the original
    reports under the original position [idx[k]]. *)
Theorem save_load_round_trip_scores features p :
  let r := state_of (load (save p) (init [] 1 None None)) in
  outcome (load (save p) (init [] 1 None None)) = inr tt
  ∧ labels r = labels p ∧ weights r = weights p
  ∧ is_frozen r = is_frozen p
  ∧ score_vector features r = score_vector features p
  ∧ (_label_indices p = None →
       outcome (score features r) = outcome (score features p))
  ∧ (∀ idx d,
       _label_indices p = Some idx → NoDup idx →
       outcome (score features p) = inr d →
       ∃ d', outcome (score features r) = inr d'
             ∧ ∀ k j, idx !! k = Some j → d' !! k = d !! j).
Proof.
  cbv zeta. rewrite load_save_fresh. unfold state_of.
  unfold outcome at 1. cbn [fst snd].
  set (r := mk _ _ _ _ _ _ _ _).
  assert (score_vector features r = score_vector features p) as Hvec.
  { apply score_vector_ext; try done; simpl.
    destruct (is_frozen p); [by left|by right]. }
  split_and!; try done.
  - intros Hi. rewrite !score_outcome, Hvec.
    destruct (score_vector features p) as [e|scores]; [done|].
    unfold score_dict. simpl. by rewrite Hi.
  - intros idx d Hidx Hnd. rewrite !score_outcome, Hvec.
    destruct (score_vector features p) as [e|scores]; [done|].
    unfold score_dict. rewrite Hidx. simpl.
    destruct (gather idx (seq 0 (length scores))) as [e|keys] eqn:Hg; [done|].
    intros [= <-]. eexists. split; [done|]. intros k j Hk.
    rewrite dict_of_enumerate_lookup.
    destruct (gather_seq_lookup idx (length scores) keys k Hg) as [Hlen Hkeys].
    case_decide as Hlt.
    + symmetry. apply dict_of_zip_lookup.
      * assert (keys = take (length scores) idx) as ->.
        { apply list_eq. intros k'.
          destruct (gather_seq_lookup idx (length scores) keys k' Hg)
            as [_ ->].
          case_decide.
          - by rewrite lookup_take_lt.
          - symmetry. apply lookup_ge_None. rewrite length_take. lia. }
        eapply sublist_NoDup; [done|apply sublist_take].
      * by rewrite Hkeys, Hk.
    + rewrite dict_of_lookup_None.
      * apply lookup_ge_None. lia.
      * intros Hin. apply list_elem_of_fmap in Hin as ([j' v'] & -> & Hin).
        apply elem_of_zip_l, list_elem_of_lookup in Hin as [k' Hk'].
        destruct (gather_seq_lookup idx (length scores) keys k' Hg)
          as [_ Hkeys'].
        rewrite Hk' in Hkeys'. case_decide as Hlt'; [|done].
        simpl in Hkeys'. symmetry in Hkeys'.
        pose proof (NoDup_lookup _ _ _ _ Hnd Hk Hkeys'). lia.
Qed.
End PersistenceFacts.

(** ** Exact arithmetic on the rationals, and binary64 *)

#[export] Instance Qc_exact : ExactScalar Qc.
Proof.
  split; simpl.
  - apply Qcplus_0_l.
  - apply Qcplus_comm.
  - apply Qcplus_assoc.
  - apply Qcmult_1_l.
  - apply Qcmult_comm.
  - apply Qcmult_assoc.
  - apply Qcmult_plus_distr_l.
  - apply Qcplus_opp_r.
  - reflexivity.
  - intros a b. apply Qc_is_canon. simpl.
    rewrite !Qred_correct. rewrite inject_Z_plus. reflexivity.
Qed.

(** The theorem of C1 at the averaging scenario of the specification, on
    the rationals: one label-1 weight that is 0 for two steps and 1 for
    two more, finalized at step 4. *)
Lemma lazy_totals_exact_witness :
  ∃ w' out,
    Averaging.run_and_finalize
      [Averaging.Call 1 (Q2Qc 1) 2] 4 [1%nat] true
      (FeatureWeights.init (F:=Qc) 2)
    = (w', inr (FeatureWeights.of_weights out))
    ∧ length out = 1%nat
    ∧ ∀ k i, [1%nat] !! k = Some i →
        FeatureWeights._totals w' !! i
        = Some (Averaging.held_sum [Averaging.Call 1 (Q2Qc 1) 2] i 4)
        ∧ out !! k
          = Some (fdiv (Averaging.held_sum [Averaging.Call 1 (Q2Qc 1) 2] i 4)
                       (of_int 4)).
Proof.
  apply (lazy_totals_exact (F:=Qc) 2 [Averaging.Call 1 (Q2Qc 1) 2] 4
           [1%nat]).
  - repeat constructor; simpl; lia.
  - apply NoDup_singleton.
  - repeat constructor.
Defined.

(** The same scenario in binary64: the averaged weight is 0.5. *)
Example averaging_scenario_binary64 :
  outcome (Averaging.run_and_finalize [Averaging.Call 1 1%float 2] 4
             [1%nat] true (FeatureWeights.init 2))
  = inr (FeatureWeights.of_weights [0.5%float]).
Proof. vm_compute. reflexivity. Qed.

(** C1 as stated fails in binary64.  One call adds 0.1 to label 0 at step
    1 and the instance is finalized at step 11.  The lazy total is
    [0.1 * 10 = 1.0]; the sum of the weight held over the eleven unit
    steps is 0.9999999999999999; the two are different floats, and so are
    the averages. *)
Lemma lazy_totals_binary64_counterexample :
  let calls := [Averaging.Call 0 0x1.999999999999ap-4%float 1] in
  let run := Averaging.run_and_finalize calls 11 [0%nat] true
               (FeatureWeights.init 1) in
  FeatureWeights._totals (state_of run) = [1%float]
  ∧ Averaging.held_sum calls 0 11 = 0x1.fffffffffffffp-1%float
  ∧ PrimFloat.eqb 1 0x1.fffffffffffffp-1 = false
  ∧ outcome run = inr (FeatureWeights.of_weights [0x1.745d1745d1746p-4%float])
  ∧ fdiv (Averaging.held_sum calls 0 11) (of_int 11)
    = 0x1.745d1745d1745p-4%float.
Proof. vm_compute. repeat split. Qed.

(** ** A correct prediction *)

(** C2, as amended (a correct prediction).  In exact arithmetic,
    [update(features, p, p)] on a well-formed trainable model returns and
    leaves every stored weight at its value (a feature it creates holds
    zeros), and it adds 2 to [update_count] of every feature named with a
    non-zero value, one for each of the two [FeatureWeights.update] calls.
    In the scenario, in binary64, f1 has [update_count] 2 after the first
    call and 4 after the second, which leaves its weights [-1.0, 1.0]. *)
Theorem correct_prediction_update :
  (∀ (F : Type) (S : Scalar F), ExactScalar F →
     ∀ (p : Perceptron.t F) features label lr,
       Perceptron.wf p → Perceptron.is_frozen p = false →
       (label < Perceptron.num_labels p)%nat → NoDup features.*1 →
       ∃ p', Perceptron.update features label label lr p = (p', inr tt)
         ∧ (∀ f w i x,
              Perceptron.weights p !! f = Some w →
              FeatureWeights.weights w !! i = Some x →
              ∃ w', Perceptron.weights p' !! f = Some w'
                    ∧ FeatureWeights.weights w' !! i = Some x)
         ∧ (∀ f w' i x,
              Perceptron.weights p !! f = None →
              Perceptron.weights p' !! f = Some w' →
              FeatureWeights.weights w' !! i = Some x → x = fzero)
         ∧ (∀ f v, (f, v) ∈ features → truthy v = true →
              FeatureWeights.update_count <$> Perceptron.weights p' !! f
              = Some (default 0%Z (FeatureWeights.update_count
                                     <$> Perceptron.weights p !! f) + 2)%Z))
  ∧ FeatureWeights.update_count
      <$> Perceptron.weights Scenario.after_first !! "f1"%string = Some 2%Z
  ∧ FeatureWeights.update_count
      <$> Perceptron.weights Scenario.after_second !! "f1"%string = Some 4%Z
  ∧ FeatureWeights.weights
      <$> Perceptron.weights Scenario.after_second !! "f1"%string
    = FeatureWeights.weights
        <$> Perceptron.weights Scenario.after_first !! "f1"%string.
Proof.
  split_and!.
  - intros F S HF p features label lr. by apply update_same_label_exact.
  - vm_compute. reflexivity.
  - vm_compute. reflexivity.
  - vm_compute. reflexivity.
Qed.

(** The general part of C2 on the rationals, at a correct prediction of
    label 1 on the fresh scenario model. *)
Lemma correct_prediction_witness :
  ∃ p', Perceptron.update Scenario.f1_exact 1 1 (Q2Qc 1) Scenario.start_exact
        = (p', inr tt)
    ∧ FeatureWeights.update_count <$> Perceptron.weights p' !! "f1"%string
      = Some 2%Z.
Proof.
  destruct (proj1 correct_prediction_update Qc _ Qc_exact
              Scenario.start_exact Scenario.f1_exact 1%nat (Q2Qc 1))
    as (p' & Hrun & _ & _ & Hcount).
  - apply wf_init.
  - reflexivity.
  - vm_compute. lia.
  - apply NoDup_singleton.
  - exists p'. split; [exact Hrun|].
    apply (Hcount "f1"%string (Q2Qc 1)); [left|reflexivity].
Defined.

(** C2 as stated fails.  In the scenario [update_count] of f1 is 2 after
    the first call and 4 after the second, not 1 and 2: every
    [Perceptron.update] makes two [FeatureWeights.update] calls per
    feature and each counts.  In binary64 a correct prediction can also
    move a weight: with learning rate 0.1, the weight 0.1 of label 1
    becomes [0.1 + 0.2 - 0.2 = 0.10000000000000003]. *)
Lemma correct_prediction_counterexample :
  (FeatureWeights.update_count
     <$> Perceptron.weights Scenario.after_first !! "f1"%string = Some 2%Z
   ∧ Some 2%Z ≠ Some 1%Z)
  ∧ (FeatureWeights.update_count
       <$> Perceptron.weights Scenario.after_second !! "f1"%string
     = Some 4%Z
     ∧ Some 4%Z ≠ Some 2%Z)
  ∧ FeatureWeights.weights
      <$> Perceptron.weights Scenario.tenth_first !! "f1"%string
    = Some [(-0x1.999999999999ap-4)%float; 0x1.999999999999ap-4%float]
  ∧ FeatureWeights.weights
      <$> Perceptron.weights Scenario.tenth_second !! "f1"%string
    = Some [(-0x1.999999999999ap-4)%float; 0x1.999999999999cp-4%float]
  ∧ PrimFloat.eqb 0x1.999999999999ap-4 0x1.999999999999cp-4 = false.
Proof. vm_compute. repeat split; discriminate. Qed.

(** ** Persistence of a finalized model *)

(** C4 as stated fails at the finalized scenario model.  [finalize] keeps
    label B only and remaps dense position 0 to original position 1; the
    model scores f1 as [{1: 0.5}].  [save] does not write [_label_indices]
    and [load] does not restore it: the reloaded model scores f1 as
    [{0: 0.5}]. *)
Lemma save_load_counterexample :
  outcome (Perceptron.finalize true Scenario.after_second)
  = inr Scenario.finalized
  ∧ Perceptron.labels Scenario.finalized = ["B"%string]
  ∧ Perceptron._label_indices Scenario.finalized = Some [1%nat]
  ∧ outcome (Perceptron.score Scenario.f1 Scenario.finalized)
    = inr {[1%nat := 0.5%float]}
  ∧ Perceptron.load (Perceptron.save Scenario.finalized) Scenario.fresh
    = (Scenario.reloaded, inr tt)
  ∧ Perceptron._label_indices Scenario.reloaded = None
  ∧ outcome (Perceptron.score Scenario.f1 Scenario.reloaded)
    = inr {[0%nat := 0.5%float]}
  ∧ ({[1%nat := 0.5%float]} : gmap nat float) !! 0%nat = None
  ∧ ({[0%nat := 0.5%float]} : gmap nat float) !! 0%nat = Some 0.5%float.
Proof. vm_compute. repeat split. Qed.

(** The amended C4 at the finalized scenario model: dense position 0 of the
    reloaded model carries the score of original position 1. *)
Lemma save_load_round_trip_witness :
  ∃ d', outcome (Perceptron.score Scenario.f1 Scenario.reloaded) = inr d'
        ∧ ∀ k j, [1%nat] !! k = Some j →
                 d' !! k = ({[1%nat := 0.5%float]} : gmap nat float) !! j.
Proof.
  destruct (save_load_round_trip_scores Scenario.f1 Scenario.finalized)
    as (_ & _ & _ & _ & _ & _ & Hremap).
  apply (Hremap [1%nat]).
  - reflexivity.
  - apply NoDup_singleton.
  - vm_compute. reflexivity.
Defined.

(** ** The properties at the scenario *)

(** C5 at a model with [min_update = 3]: f1, counted 4 times, is kept and
    f2, counted twice, is pruned. *)
Lemma finalize_threshold_pruning_witness :
  (is_Some (Perceptron.weights Scenario.threshold_finalized !! "f1"%string)
   ↔ (∃ w, Perceptron.weights Scenario.threshold_model !! "f1"%string
           = Some w
           ∧ (Perceptron._min_update Scenario.threshold_model
              ≤ FeatureWeights.update_count w)%Z))
  ∧ (is_Some (Perceptron.weights Scenario.threshold_finalized !! "f2"%string)
     ↔ (∃ w, Perceptron.weights Scenario.threshold_model !! "f2"%string
             = Some w
             ∧ (Perceptron._min_update Scenario.threshold_model
                ≤ FeatureWeights.update_count w)%Z)).
Proof.
  split; apply (finalize_threshold_pruning true Scenario.threshold_model);
    vm_compute; reflexivity.
Defined.

(** C6 at the scenario: label A (position 0) was never a true label. *)
Lemma finalize_label_pruning_witness :
  ∃ idx,
    Perceptron._label_indices Scenario.finalized = Some idx
    ∧ StronglySorted lt idx
    ∧ length (Perceptron.labels Scenario.finalized) = length idx
    ∧ (∀ k j, idx !! k = Some j →
         Perceptron.labels Scenario.finalized !! k
         = Perceptron.labels
             (Perceptron.run Scenario.session Scenario.start) !! j
         ∧ is_Some (Perceptron.labels
                      (Perceptron.run Scenario.session Scenario.start) !! j)
         ∧ j ∈ Perceptron.true_args Scenario.session)
    ∧ (0%nat ∉ Perceptron.true_args Scenario.session →
         (0%nat ∉ idx)
         ∧ (∀ features d,
              outcome (Perceptron.score features Scenario.finalized) = inr d →
              d !! 0%nat = None)).
Proof.
  apply (finalize_label_pruning ["A"; "B"]%string 1 Scenario.session true
           Scenario.finalized 0).
  vm_compute. reflexivity.
Defined.

(** C7 at the scenario: label C is appended after the first call. *)
Lemma label_growth_witness :
  let w := FeatureWeights.mk [(-1)%float; 1%float] [0%float; 0%float]
             [1%Z; 1%Z] 2 in
  let p' := Perceptron.grown
              (Perceptron.append_label "C" Scenario.after_first) in
  Perceptron.num_labels p' = 3%nat
  ∧ ∃ w', Perceptron.weights p' !! "f1"%string = Some w'
      ∧ FeatureWeights.update_count w' = 2%Z
      ∧ FeatureWeights.dim 3 w'
      ∧ FeatureWeights.weights w' !! 1%nat = Some 1%float
      ∧ FeatureWeights.weights w' !! 2%nat = Some 0%float.
Proof.
  intros w p'.
  destruct (label_growth_keeps_stored_state Scenario.after_first "C"
              "f1"%string w) as (_ & _ & Hn & w' & Hw' & Hc & Hd & Hold & Hnew).
  - apply update_wf, wf_init.
  - reflexivity.
  - vm_compute. reflexivity.
  - split; [exact Hn|]. exists w'. split; [exact Hw'|].
    split; [exact Hc|]. split; [exact Hd|]. split.
    + destruct (Hold 1%nat) as (-> & _); [simpl; lia|reflexivity].
    + destruct (Hnew 2%nat) as (-> & _); [|reflexivity].
      vm_compute. lia.
Defined.

(** C8 at the model with [min_update = 3]: f2 is below the threshold. *)
Lemma score_min_update_filter_witness :
  Perceptron.score_feature Scenario.threshold_model [0%float; 0%float]
    ("f2"%string, 1%float) = inr [0%float; 0%float]
  ∧ Perceptron.score
      (filter (λ fv, Perceptron.below_min_update Scenario.threshold_model
                       fv.1 = false)
              [("f1"%string, 1%float); ("f2"%string, 1%float)])
      Scenario.threshold_model
    = Perceptron.score [("f1"%string, 1%float); ("f2"%string, 1%float)]
        Scenario.threshold_model.
Proof.
  destruct (proj1 score_min_update_filter float _ Scenario.threshold_model
              [("f1"%string, 1%float); ("f2"%string, 1%float)]
              [0%float; 0%float] "f2"%string 1%float) as [Hone Hall].
  - reflexivity.
  - split; [apply Hone; reflexivity|exact Hall].
Defined.

(** C9 at the finalized scenario model. *)
Lemma frozen_rejects_witness :
  Perceptron.update Scenario.f1 0 1 1%float Scenario.finalized
  = (Scenario.finalized, inl AssertionError)
  ∧ Perceptron.finalize true Scenario.finalized
    = (Scenario.finalized, inl AssertionError).
Proof.
  apply (frozen_rejects_update_and_finalize Scenario.finalized Scenario.f1
           0 1 1%float true).
  reflexivity.
Defined.

(** C10 on the fresh scenario model. *)
Lemma finalize_without_true_label_witness :
  outcome (Perceptron.finalize true
             (Perceptron.run [] (Perceptron.init (F:=float)
                                   ["A"; "B"]%string 1 None None)))
  = inl ValueError.
Proof.
  apply (proj2 (finalize_without_true_label_raises true)
           ["A"; "B"]%string 1%Z []).
  reflexivity.
Defined.

(** * Further properties of the code *)

(** ** FeatureWeights: errors, synchronisation, resizing *)

Section FeatureWeightsEdges.
Context {F : Type} `{Scalar F}.
Implicit Types (w : FeatureWeights.t F) (labels : list nat) (n : nat).
Import FeatureWeights.

Lemma update_raises_out_of_range n label value update_index w :
  dim n w → (n ≤ label)%nat →
  update label value update_index w
  = (mk (weights w) (_totals w) (_last_update w) (update_count w + 1),
     inl IndexError).
Proof.
  intros (_ & Ht & _) Hl. unfold update, _update_totals. unfold_m. simpl.
  rewrite (proj2 (lookup_ge_None (_totals w) label)) by lia. done.
Qed.


Lemma gather_out_of_range {A} (v : list A) idx :
  Exists (λ i, length v ≤ i)%nat idx → gather v idx = inl IndexError.
Proof.
  induction 1 as [i idx Hi|i idx _ IH]; simpl.
  - by rewrite (proj2 (lookup_ge_None v i)) by lia.
  - rewrite IH. by destruct (v !! i).
Qed.

(** X2 ([FeatureWeights.finalize] out of range).
    [finalize] with a position outside the vectors raises IndexError and
    leaves the instance exactly as it was: numpy reads all the listed cells
    before it writes any. *)
Theorem finalize_out_of_range_untouched n labels update_index average w :
  dim n w → Exists (λ i, n ≤ i)%nat labels →
  finalize update_index labels average w = (w, inl IndexError).
Proof.
  intros (_ & Ht & _) Hl. unfold finalize, _update_totals_list. unfold_m.
  rewrite gather_out_of_range; [done|]. by rewrite Ht.
Qed.

Lemma gather_insert_other {A} (v : list A) idx l x :
  l ∉ idx → gather (<[l := x]> v) idx = gather v idx.
Proof.
  induction idx as [|i idx IH]; intros Hl; [done|]. simpl.
  rewrite list_lookup_insert_ne by set_solver.
  rewrite IH by set_solver. done.
Qed.

(** X3 (batch and single synchronisation).
    The batch synchronisation of [finalize], on distinct positions inside
    the vectors, is the single-label synchronisation of [update] applied
    to each position in turn. *)
Theorem _update_totals_list_sequential n labels update_index w :
  dim n w → NoDup labels → Forall (λ i, i < n)%nat labels →
  _update_totals_list labels update_index w
  = for_each (λ l, _update_totals l update_index) labels w.
Proof.
  intros Hdim Hnd. revert w Hdim.
  induction Hnd as [|l labels Hl Hnd IH]; intros w Hdim Hall.
  { unfold _update_totals_list. simpl. by destruct w. }
  apply Forall_cons in Hall as [Hln Hall].
  destruct (dim_lookups n w l Hdim Hln) as (x & tot & last & Hx & Htot & Hlast).
  rewrite for_each_cons. unfold _update_totals at 1.
  rewrite Htot, Hx, Hlast.
  set (w1 := mk _ _ _ _).
  assert (dim n w1) as Hdim1.
  { destruct Hdim as (? & ? & ?). unfold dim, w1. simpl.
    by rewrite !length_insert. }
  rewrite <- (IH w1 Hdim1 Hall).
  unfold _update_totals_list. simpl. rewrite Htot, Hx, Hlast.
  rewrite !gather_insert_other by done.
  destruct (gather_returns (_totals w) labels) as (tots & -> & _).
  { by rewrite (proj1 (proj2 Hdim)). }
  destruct (gather_returns (weights w) labels) as (xs & -> & _).
  { by rewrite (proj1 Hdim). }
  destruct (gather_returns (_last_update w) labels) as (lasts & -> & _).
  { by rewrite (proj2 (proj2 Hdim)). }
  done.
Qed.

Lemma resize_vec_lookup {A} (z : A) n (v : list A) i :
  resize_vec z n v !! i
  = if decide (i < n)%nat then Some (default z (v !! i)) else None.
Proof.
  unfold resize_vec. case_decide as Hi.
  - rewrite lookup_take_lt by done.
    destruct (decide (i < length v)%nat) as [Hv|Hv].
    + rewrite lookup_app_l by done.
      by destruct (lookup_lt_is_Some_2 v i Hv) as [x ->].
    + rewrite lookup_app_r by lia.
      rewrite (proj2 (lookup_ge_None v i)) by lia. simpl.
      destruct (decide (i - length v < n - length v)%nat) as [Hr|Hr].
      * by rewrite lookup_replicate_2.
      * lia.
  - apply lookup_ge_None. rewrite length_take, length_app, length_replicate.
    lia.
Qed.

Lemma resize_vec_resize_vec {A} (z : A) n m (v : list A) :
  (length v ≤ n)%nat →
  resize_vec z m (resize_vec z n v) = resize_vec z m v.
Proof.
  intros Hn. apply list_eq. intros i. rewrite !resize_vec_lookup.
  case_decide; [|done]. f_equal. case_decide; [done|].
  by rewrite (proj2 (lookup_ge_None v i)) by lia.
Qed.

(** X4 ([FeatureWeights.resize]).
    [resize(n)] leaves three vectors of length [n]: a cell below [n] keeps
    its value if it existed and is zero otherwise, the cells from [n] on
    are dropped, the count is kept.  Growing and then resizing is resizing
    at once; resizing to the present length changes nothing. *)
Theorem resize_cells_and_composition n m w :
  let w' := state_of (resize m w) in
  dim m w'
  ∧ update_count w' = update_count w
  ∧ (∀ i, weights w' !! i
          = if decide (i < m)%nat then Some (default fzero (weights w !! i))
            else None)
  ∧ (∀ i, _totals w' !! i
          = if decide (i < m)%nat then Some (default fzero (_totals w !! i))
            else None)
  ∧ (∀ i, _last_update w' !! i
          = if decide (i < m)%nat
            then Some (default 0%Z (_last_update w !! i))
            else None)
  ∧ (dim n w → (n ≤ m)%nat →
       ∀ k, state_of (resize k w') = state_of (resize k w))
  ∧ (dim m w → w' = w).
Proof.
  cbv zeta. split_and!.
  - apply resize_dim.
  - done.
  - intros i. apply resize_vec_lookup.
  - intros i. apply resize_vec_lookup.
  - intros i. apply resize_vec_lookup.
  - intros (Hw & Ht & Hl) Hnm k. unfold resize, modify, state_of. simpl.
    by rewrite !resize_vec_resize_vec by lia.
  - intros (Hw & Ht & Hl). unfold resize, modify, state_of. simpl.
    rewrite <- Hw at 1. rewrite <- Ht at 1. rewrite <- Hl at 1.
    rewrite !resize_vec_same. by destruct w.
Qed.
End FeatureWeightsEdges.

Section SynchronisationExact.
Context {F : Type} `{ExactScalar F}.
Implicit Types (w : FeatureWeights.t F).
Import FeatureWeights.

Add Ring exact_ring_sync : (exact_ring_theory (F:=F)).

(** X5 (repeated synchronisation).
    In exact arithmetic, synchronising a label at one step and again at
    another is synchronising it once at the second step: an intermediate
    synchronisation leaves no trace, and a repeated one at the same step
    does nothing.  (Both sides raise IndexError, and change nothing, on a
    label outside the vectors.) *)
Theorem _update_totals_twice label s T w :
  (_update_totals label s;; _update_totals label T) w
  = _update_totals label T w.
Proof.
  unfold mbind, M_bind, _update_totals.
  destruct (_totals w !! label) as [tot|] eqn:Htot; [|done].
  destruct (weights w !! label) as [x|] eqn:Hx; [|done].
  destruct (_last_update w !! label) as [last|] eqn:Hlast; [|done].
  simpl. rewrite Hx.
  rewrite !list_lookup_insert_eq
    by (by eapply lookup_lt_Some).
  rewrite !list_insert_insert_eq. do 2 f_equal.
  f_equal. unfold synced.
  replace (T - last)%Z with ((s - last) + (T - s))%Z by lia.
  rewrite of_int_add. ring.
Qed.
End SynchronisationExact.

(** The composition of synchronisations on the rationals. *)
Lemma _update_totals_twice_witness :
  (FeatureWeights._update_totals 0 2;; FeatureWeights._update_totals 0 5)
    (FeatureWeights.mk [Q2Qc 3] [Q2Qc 0] [0%Z] 0)
  = FeatureWeights._update_totals 0 5
      (FeatureWeights.mk [Q2Qc 3] [Q2Qc 0] [0%Z] 0).
Proof. apply (_update_totals_twice (F:=Qc)). Defined.

(** ** Perceptron.score: what it returns and what it leaves alone *)

Section ScoreTotality.
Context {F : Type} `{Scalar F}.
Implicit Types (p q : Perceptron.t F) (w : FeatureWeights.t F) (f : string).
Implicit Types (features : list (string * F)) (scores : list F).
Import Perceptron.

Lemma grown_fixed p :
  (num_labels p ≤ length (_true_labels p))%nat → grown p = p.
Proof.
  intros Hn. unfold grown, _update_num_labels, modify, state_of. simpl.
  by rewrite decide_False by lia.
Qed.

Lemma grown_grown p : grown (grown p) = grown p.
Proof.
  apply grown_fixed. rewrite num_labels_grown, grown_true_labels.
  rewrite length_app, length_replicate. lia.
Qed.

Lemma dom_weights_grown p : dom (weights (grown p)) = dom (weights p).
Proof.
  apply set_eq. intros f. rewrite !elem_of_dom, grown_weights.
  case_decide; [|done]. by rewrite fmap_is_Some.
Qed.

(** X6 ([score] leaves the model alone).
    [score] is read-only apart from the grow-check: it never adds or drops
    a feature (an unknown name is looked up, not inserted); when no label
    was appended since the flags were last extended it leaves the model
    exactly as it was; and after one call a second call changes nothing
    and returns what it would have returned in the first place. *)
Theorem score_is_read_only features features' p :
  let p1 := state_of (score features' p) in
  dom (weights p1) = dom (weights p)
  ∧ ((num_labels p ≤ length (_true_labels p))%nat → p1 = p)
  ∧ state_of (score features p1) = p1
  ∧ outcome (score features p1) = outcome (score features p).
Proof.
  cbv zeta. rewrite !score_state.
  destruct (is_frozen p) eqn:Hf.
  { rewrite Hf. by split_and!. }
  assert (is_frozen (grown p) = false) as Hg.
  { by rewrite (proj1 (proj2 (grown_frame p))). }
  rewrite Hg, grown_grown. split_and!.
  - apply dom_weights_grown.
  - apply grown_fixed.
  - done.
  - rewrite !score_unfold, Hf, Hg. cbv zeta. by rewrite grown_grown.
Qed.

(** The loop of [score] on a model all of whose weight vectors have one
    cell per label: it returns, with one score per label. *)
Lemma score_loop_returns n p scores features :
  map_Forall (λ _ w, length (FeatureWeights.weights w) = n) (weights p) →
  length scores = n →
  ∃ scores', score_loop p scores features = inr scores'
             ∧ length scores' = n.
Proof.
  intros Hw. revert scores.
  induction features as [|fv features IH]; intros scores Hlen.
  { by exists scores. }
  simpl.
  assert (∃ s1, score_feature p scores fv = inr s1 ∧ length s1 = n)
    as (s1 & -> & Hs1).
  { unfold score_feature.
    destruct (negb (truthy fv.2)); [by exists scores|].
    destruct (weights p !! fv.1) as [w|] eqn:Hfw; [|by exists scores].
    destruct (negb (is_frozen p) && _); [by exists scores|].
    unfold iadd_broadcast. rewrite length_map, (Hw _ _ Hfw), Hlen.
    rewrite decide_True by done. eexists. split; [done|].
    rewrite length_zip_with, length_map, (Hw _ _ Hfw). lia. }
  by apply IH.
Qed.

(** X7 ([score] on a trainable model).
    On a well-formed trainable model without a remapping, [score] returns
    for every feature vector, after the grow-check, a dictionary with
    exactly one entry per current label. *)
Theorem score_returns_every_label features p :
  wf p → is_frozen p = false → _label_indices p = None →
  ∃ d, score features p = (grown p, inr d)
       ∧ ∀ i, is_Some (d !! i) ↔ (i < num_labels p)%nat.
Proof.
  intros Hwf Hf Hi. rewrite score_unfold, Hf. cbv zeta.
  destruct (wf_grown p Hwf) as [[_ Hdim] Hlen].
  destruct (score_loop_returns (num_labels p) (grown p)
              (replicate (num_labels (grown p)) fzero) features)
    as (scores & -> & Hs).
  { intros f w Hfw. rewrite <- Hlen. by apply (Hdim f w Hfw). }
  { by rewrite length_replicate, num_labels_grown. }
  unfold score_dict. rewrite (proj1 (proj2 (proj2 (grown_frame p)))), Hi.
  eexists. split; [done|]. intros i.
  rewrite dict_of_enumerate_lookup, <- Hs. apply lookup_lt_is_Some.
Qed.

Lemma gather_length {A} (v : list A) idx xs :
  gather v idx = inr xs → length xs = length idx.
Proof.
  revert xs. induction idx as [|i idx IH]; intros xs; simpl.
  { by intros [= <-]. }
  destruct (v !! i); [|done]. destruct (gather v idx); [done|].
  intros [= <-]. simpl. by rewrite (IH _ eq_refl).
Qed.

Lemma finalize_returns_length labels update_index average w w' :
  outcome (FeatureWeights.finalize update_index labels average w) = inr w' →
  length (FeatureWeights.weights w') = length labels.
Proof.
  unfold FeatureWeights.finalize. unfold_m.
  destruct (FeatureWeights._update_totals_list labels update_index w)
    as [w1 [e|[]]]; simpl; [done|].
  destruct (gather _ labels) as [e|xs] eqn:Hg; simpl; [done|].
  intros [= <-]. simpl. apply gather_length in Hg.
  destruct average; [by rewrite length_map|done].
Qed.

Lemma gather_all {A} (idx : list A) :
  gather idx (seq 0 (length idx)) = inr idx.
Proof.
  destruct (gather_returns idx (seq 0 (length idx))) as (keys & Hg & _).
  { apply Forall_forall. intros i Hi%elem_of_seq. lia. }
  rewrite Hg. f_equal. apply list_eq. intros k.
  destruct (gather_seq_lookup idx (length idx) keys k Hg) as [_ ->].
  case_decide; [done|]. symmetry. apply lookup_ge_None. lia.
Qed.

(** X8 ([score] on a finalized model).
    A model that [finalize] returned scores every feature vector without
    raising and without changing: its weight vectors and its remapping
    both have one entry per kept label, and the dictionary has exactly the
    kept original positions as keys. *)
Theorem finalized_model_scores average p q features :
  outcome (finalize average p) = inr q →
  ∃ idx d,
    _label_indices q = Some idx
    ∧ score features q = (q, inr d)
    ∧ ∀ i, is_Some (d !! i) ↔ i ∈ idx.
Proof.
  intros Hq.
  destruct (finalize_returns_model average p q Hq)
    as (_ & _ & Hfq & Hlq & Hiq & Hws).
  set (idx := (kept_labels (grown p)).*1) in *.
  exists idx.
  unfold outcome, finalize_weights in Hws. simpl in Hws.
  destruct (finalize_fold_spec 0 (_update_index (grown p))
              (_min_update (grown p)) idx average
              (weights (grown p)) (weights (grown p)))
    as (_ & _ & Hout & _).
  destruct (Hout _ Hws) as [_ Hval].
  rewrite score_unfold, Hfq. cbv zeta.
  destruct (score_loop_returns (length idx) q
              (replicate (num_labels q) fzero) features)
    as (scores & -> & Hs).
  { intros f w' Hfw. destruct (Hval f w' Hfw) as (w & _ & Hfin).
    by apply finalize_returns_length in Hfin. }
  { rewrite length_replicate. unfold num_labels, idx.
    by rewrite Hlq, !length_fmap. }
  unfold score_dict. rewrite Hiq, Hs, gather_all.
  eexists. split_and!; [done|done|]. intros i. split.
  - intros Hd. destruct (decide (i ∈ idx)) as [|Hni]; [done|].
    rewrite dict_of_lookup_None in Hd; [by destruct Hd|].
    intros Hin. apply Hni.
    apply list_elem_of_fmap in Hin as ([k x] & -> & Hkx).
    by apply elem_of_zip_l in Hkx.
  - intros [k Hk]%list_elem_of_lookup.
    rewrite (dict_of_zip_lookup idx scores k i); [|apply kept_labels_NoDup|done].
    apply lookup_lt_is_Some. rewrite Hs. by eapply lookup_lt_Some.
Qed.
End ScoreTotality.

(** ** Perceptron.update: calls that touch no feature, calls that raise *)

Section UpdateEdges.
Context {F : Type} `{Scalar F}.
Implicit Types (p : Perceptron.t F) (w : FeatureWeights.t F) (f : string).
Implicit Types (features : list (string * F)) (pred true_label n : nat).
Import Perceptron.

Local Arguments grown : simpl never.
Local Arguments before_loop : simpl never.

Lemma update_loop_all_zero pred true_label lr features p :
  Forall (λ fv, truthy fv.2 = false) features →
  for_each (update_feature pred true_label lr) features p = (p, inr tt).
Proof.
  induction 1 as [|fv features Hfv _ IH]; [done|].
  rewrite for_each_cons. unfold update_feature at 1. by rewrite Hfv.
Qed.

(** X9 ([update] with no non-zero feature).
    A call whose feature vector is empty, or names only zero values,
    touches no weights: it returns as soon as the true label has a flag,
    whatever [pred] is (the predicted label is only ever used inside the
    loop), having incremented the counter, run the grow-check and set the
    flag. *)
Theorem update_without_features pred true_label lr features p :
  is_frozen p = false →
  Forall (λ fv, truthy fv.2 = false) features →
  (true_label < length (_true_labels p) ∨ true_label < num_labels p)%nat →
  update features pred true_label lr p = (before_loop true_label p, inr tt)
  ∧ weights (before_loop true_label p) = weights (grown p)
  ∧ _update_index (before_loop true_label p) = (_update_index p + 1)%Z
  ∧ _true_labels (before_loop true_label p) !! true_label = Some true.
Proof.
  intros Hf Hz Ht.
  assert (true_label < length (_true_labels (grown p)))%nat as Hlt.
  { rewrite grown_true_labels, length_app, length_replicate. lia. }
  split_and!.
  - rewrite update_unfrozen by done. cbv zeta.
    rewrite decide_True.
    + by apply update_loop_all_zero.
    + rewrite grown_true_labels, length_app, length_replicate.
      rewrite grown_true_labels, length_app, length_replicate in Hlt.
      unfold num_labels in *. simpl. lia.
  - apply before_loop_weights.
  - apply before_loop_frame.
  - rewrite before_loop_true_labels. by apply list_lookup_insert_eq.
Qed.

(** X10 ([update] with the true label out of range).
    A true label that has no flag even after the grow-check: IndexError
    before any feature is touched and before any flag is set; the counter
    has been incremented all the same. *)
Theorem update_true_label_out_of_range pred true_label lr features p :
  is_frozen p = false →
  (length (_true_labels p) ≤ true_label)%nat →
  (num_labels p ≤ true_label)%nat →
  update features pred true_label lr p
  = (grown (set_update_index (_update_index p + 1) p), inl IndexError)
  ∧ weights (grown (set_update_index (_update_index p + 1) p))
    = weights (grown p)
  ∧ _true_labels (grown (set_update_index (_update_index p + 1) p))
    = _true_labels (grown p).
Proof.
  intros Hf Ht Hn. split_and!.
  - rewrite update_unfrozen by done. cbv zeta.
    rewrite decide_False; [done|].
    rewrite grown_true_labels, length_app, length_replicate.
    unfold num_labels in *. simpl. lia.
  - unfold grown, _update_num_labels, modify, state_of, num_labels. simpl.
    by case_decide.
  - unfold grown, _update_num_labels, modify, state_of, num_labels. simpl.
    by case_decide.
Qed.

Lemma update_feature_nonzero pred true_label lr f v p :
  truthy v = true →
  update_feature pred true_label lr (f, v) p
  = with_feature f (feature_updates pred true_label lr v (_update_index p)) p.
Proof. intros Hv. unfold update_feature. simpl. by rewrite Hv. Qed.

Lemma feature_updates_pred_out_of_range n pred true_label lr value
    update_index w :
  FeatureWeights.dim n w → (true_label < n)%nat → (n ≤ pred)%nat →
  ∃ w', feature_updates pred true_label lr value update_index w
        = (w', inl IndexError)
    ∧ FeatureWeights.weights w'
      = alter (λ x, fadd x (fmul lr value)) true_label
          (FeatureWeights.weights w)
    ∧ FeatureWeights.update_count w'
      = (FeatureWeights.update_count w + 2)%Z.
Proof.
  intros Hdim Ht Hp.
  destruct (dim_lookups n w true_label Hdim Ht)
    as (x & tot & last & Hx & Htot & Hl).
  unfold feature_updates. unfold mbind, M_bind.
  rewrite (update_returns _ _ _ _ _ _ _ Hx Htot Hl).
  set (w1 := FeatureWeights.mk _ _ _ _).
  assert (FeatureWeights.dim n w1) as Hdim1.
  { destruct Hdim as (? & ? & ?). unfold FeatureWeights.dim, w1. simpl.
    by rewrite !length_insert. }
  rewrite (update_raises_out_of_range n pred _ _ w1 Hdim1 Hp).
  eexists. split; [done|]. simpl. split.
  - by apply (insert_as_alter (λ y, fadd y (fmul lr value))).
  - lia.
Qed.

(** X11 ([update] with the predicted label out of range).
    A call with the true label in range and the predicted label out of
    range is half applied.  At the first feature of non-zero value the
    true label's weight has gained [learning_rate * value] and the
    feature has been counted twice when the second
    [FeatureWeights.update] raises IndexError; the loop stops there, so
    the other features are as the grow-check left them. *)
Theorem update_pred_out_of_range f v features pred true_label lr p :
  wf p → is_frozen p = false → truthy v = true →
  (true_label < num_labels p)%nat → (num_labels p ≤ pred)%nat →
  let w0 := default (FeatureWeights.init (num_labels p))
                    (weights (grown p) !! f) in
  ∃ p' w',
    update ((f, v) :: features) pred true_label lr p = (p', inl IndexError)
    ∧ _update_index p' = (_update_index p + 1)%Z
    ∧ _true_labels p' !! true_label = Some true
    ∧ weights p' !! f = Some w'
    ∧ FeatureWeights.weights w'
      = alter (λ x, fadd x (fmul lr v)) true_label
          (FeatureWeights.weights w0)
    ∧ FeatureWeights.update_count w'
      = (FeatureWeights.update_count w0 + 2)%Z
    ∧ ∀ g, g ≠ f → weights p' !! g = weights (grown p) !! g.
Proof.
  intros Hwf Hf Hv Ht Hp w0.
  destruct (before_loop_covered true_label p Hwf) as [[Hn Hdim] Hlen].
  destruct (before_loop_frame true_label p) as (Hl0 & _ & _ & _ & Hi0).
  assert (FeatureWeights.dim (num_labels p) w0) as Hw0.
  { unfold w0. destruct (weights (grown p) !! f) as [w|] eqn:Hw; simpl.
    - rewrite before_loop_weights in Hdim. by apply (Hdim f).
    - apply dim_init. }
  destruct (feature_updates_pred_out_of_range (num_labels p) pred true_label
              lr v (_update_index p + 1) w0 Hw0 Ht Hp)
    as (w' & Hrun & Hws & Hcount).
  eexists _, w'. split_and!.
  - rewrite update_unfrozen by done. cbv zeta. rewrite decide_True.
    + rewrite for_each_cons, update_feature_nonzero by done.
      unfold with_feature. rewrite Hi0, before_loop_weights.
      unfold num_labels at 1 2. rewrite Hl0. fold (num_labels p). fold w0.
      unfold outcome, state_of. rewrite Hrun. done.
    + destruct (wf_grown (set_update_index (_update_index p + 1) p) Hwf)
        as [_ Hg]. rewrite Hg. done.
  - cbn [set_weights _update_index]. apply Hi0.
  - cbn [set_weights _true_labels]. rewrite before_loop_true_labels.
    apply list_lookup_insert_eq.
    destruct (wf_grown p Hwf) as [_ ->]. done.
  - cbn [set_weights weights]. apply lookup_insert_eq.
  - done.
  - done.
  - intros g Hg. cbn [set_weights weights].
    by rewrite lookup_insert_ne by done.
Qed.
End UpdateEdges.

(** ** Perceptron.finalize: when it returns, and the weights it returns *)

Section FinalizeResults.
Context {F : Type} `{Scalar F}.
Implicit Types (p q : Perceptron.t F) (w : FeatureWeights.t F) (f : string).
Implicit Types (features : list (string * F)).
Import Perceptron.

Local Arguments grown : simpl never.
Local Arguments before_loop : simpl never.

Lemma update_returned_sets_flag features pred true_label lr p :
  is_frozen p = false →
  outcome (update features pred true_label lr p) = inr tt →
  _true_labels (state_of (update features pred true_label lr p))
    !! true_label = Some true.
Proof.
  intros Hf. rewrite update_unfrozen by done. cbv zeta.
  case_decide as Ht; [|done]. intros _.
  assert (_true_labels (state_of
            (for_each (update_feature pred true_label lr) features
               (before_loop true_label p)))
          = _true_labels (before_loop true_label p)) as ->.
  { apply (for_each_state_inv
             (λ s, _true_labels s = _true_labels (before_loop true_label p)));
      [|done].
    intros fv s <-. apply update_feature_frame. }
  rewrite before_loop_true_labels. apply list_lookup_insert_eq.
  unfold grown, _update_num_labels, modify, state_of, num_labels in *.
  simpl in *. by case_decide.
Qed.

(** X12 ([finalize] after an [update]).
    On a well-formed trainable model with a flag set, [finalize] returns a
    frozen model with at least one label; in particular it returns after
    any [update] call that returned. *)
Theorem finalize_returns_after_update average p :
  wf p → is_frozen p = false →
  (∀ i, _true_labels p !! i = Some true →
        ∃ q, outcome (finalize average p) = inr q
             ∧ is_frozen q = true ∧ labels q ≠ [])
  ∧ (∀ features pred true_label lr,
       outcome (update features pred true_label lr p) = inr tt →
       ∃ q, outcome (finalize average
                       (state_of (update features pred true_label lr p)))
            = inr q).
Proof.
  intros Hwf Hf.
  assert (∀ p0 i, wf p0 → is_frozen p0 = false →
                  _true_labels p0 !! i = Some true →
                  ∃ q, outcome (finalize average p0) = inr q
                       ∧ is_frozen q = true ∧ labels q ≠ []) as Hgen.
  { intros p0 i Hwf0 Hf0 Hi.
    assert (kept_labels (grown p0) ≠ []) as Hk.
    { destruct Hwf0 as [Hlen _].
      destruct (lookup_lt_is_Some_2 (labels p0) i) as [l Hl].
      { apply lookup_lt_Some in Hi. unfold num_labels in Hlen. lia. }
      assert ((i, l) ∈ kept_labels (grown p0)) as Hin.
      { apply elem_of_kept_labels. split.
        - rewrite grown_true_labels. by apply lookup_app_l_Some.
        - by rewrite (proj1 (grown_frame p0)). }
      intros Hnil. rewrite Hnil in Hin. by apply elem_of_nil in Hin. }
    destruct (finalize_returns_when_kept average p0 Hwf0 Hf0 Hk) as [q Hq].
    exists q. split; [done|].
    destruct (finalize_returns_model average p0 q Hq)
      as (_ & _ & Hfq & Hlq & _).
    split; [done|]. rewrite Hlq. intros Hnil.
    apply fmap_nil_inv in Hnil. done. }
  split.
  - intros i Hi. by eapply Hgen.
  - intros features pred true_label lr Hret.
    destruct (Hgen (state_of (update features pred true_label lr p))
                true_label) as (q & Hq & _).
    + by apply update_wf.
    + pose proof (exec_call_is_frozen p
                    (Update features pred true_label lr)) as Hfr.
      simpl in Hfr. by rewrite Hfr.
    + by apply update_returned_sets_flag.
    + by exists q.
Qed.

(** X13 (the weights of a finalized model).
    The weights of a returned model.  Every feature of the result is a
    stored feature, and its weight at dense position [k] is read at the
    original position [idx[k]] of the stored vectors: the live weight
    when [average] is false; when it is true, the total synchronised at
    [_update_index], divided by [_update_index]. *)
Theorem finalize_weights_formula average p q f w' :
  wf p → outcome (finalize average p) = inr q →
  weights q !! f = Some w' →
  ∃ idx w,
    _label_indices q = Some idx
    ∧ weights (grown p) !! f = Some w
    ∧ length (FeatureWeights.weights w') = length idx
    ∧ ∀ k j, idx !! k = Some j →
        ∃ x tot last,
          FeatureWeights.weights w !! j = Some x
          ∧ FeatureWeights._totals w !! j = Some tot
          ∧ FeatureWeights._last_update w !! j = Some last
          ∧ FeatureWeights.weights w' !! k
            = Some (if average
                    then fdiv (FeatureWeights.synced tot x last
                                 (_update_index p))
                              (of_int (_update_index p))
                    else x).
Proof.
  intros Hwf Hq Hw'.
  destruct (finalize_returns_model average p q Hq)
    as (_ & _ & _ & _ & Hiq & Hws).
  set (idx := (kept_labels (grown p)).*1) in *.
  unfold outcome, finalize_weights in Hws. simpl in Hws.
  destruct (finalize_fold_spec 0 (_update_index (grown p))
              (_min_update (grown p)) idx average
              (weights (grown p)) (weights (grown p)))
    as (_ & _ & Hout & _).
  destruct (Hout _ Hws) as [_ Hval].
  destruct (Hval f w' Hw') as (w & Hw & Hfin).
  destruct (wf_grown p Hwf) as [[_ Hdim] Hlen].
  pose proof (Hdim f w Hw) as Hdw.
  pose proof (kept_labels_bound (grown p)) as Hb. fold idx in Hb.
  rewrite (proj2 (proj2 (proj2 (proj2 (grown_frame p))))) in Hfin.
  destruct (finalize_returns _ idx (_update_index p) average w Hdw Hb)
    as (w1 & out & Hrun & Hlo & Hlook).
  unfold outcome in Hfin. rewrite Hrun in Hfin. simpl in Hfin.
  injection Hfin as <-.
  destruct (_update_totals_list_returns _ idx (_update_index p) w Hdw Hb)
    as (w2 & Hsync & _ & _ & _ & _ & Hlisted).
  assert (w1 = w2) as ->.
  { pose proof (finalize_state idx (_update_index p) average w) as Hst.
    rewrite Hrun, Hsync in Hst. done. }
  exists idx, w. split_and!; [done|done|done|].
  intros k j Hk.
  assert (j < length (_true_labels (grown p)))%nat as Hj.
  { eapply Forall_forall in Hb; [done|]. by eapply list_elem_of_lookup_2. }
  destruct (dim_lookups _ w j Hdw Hj) as (x & tot & last & Hx & Htot & Hl).
  exists x, tot, last. split_and!; try done.
  simpl. rewrite (Hlook k j Hk). destruct average; [|done].
  destruct (Hlisted (kept_labels_NoDup (grown p)) j tot x last) as [-> _];
    try done.
  by eapply list_elem_of_lookup_2.
Qed.
End FinalizeResults.

(** ** Invariants of a training session *)

Section SessionInvariants.
Context {F : Type} `{Scalar F}.
Implicit Types (p q : Perceptron.t F) (w : FeatureWeights.t F) (f : string).
Implicit Types (calls : list (Perceptron.call F)).
Import Perceptron.

Local Arguments grown : simpl never.
Local Arguments before_loop : simpl never.

Lemma finalize_state_update_index average p :
  _update_index (state_of (finalize average p)) = _update_index p.
Proof.
  destruct (is_frozen p) eqn:Hf.
  { by rewrite finalize_is_frozen. }
  rewrite finalize_unfrozen by done. cbv zeta.
  destruct (grown_frame p) as (_ & _ & _ & _ & Hi).
  by destruct (kept_labels (grown p)).
Qed.

Lemma exec_call_update_index p c :
  is_frozen p = false →
  _update_index (exec_call p c)
  = (_update_index p + Z.of_nat (length (true_args [c])))%Z.
Proof.
  intros Hf.
  destruct c as [features pred true_label lr|features|l|average]; simpl.
  - by apply update_index_incremented.
  - rewrite score_state, Hf.
    rewrite (proj2 (proj2 (proj2 (proj2 (grown_frame p))))). lia.
  - lia.
  - rewrite finalize_state_update_index. lia.
Qed.

Lemma run_update_index_fresh ls min_update label_indices calls :
  _update_index (run calls (init (F:=F) ls min_update None label_indices))
  = Z.of_nat (length (true_args calls)).
Proof.
  induction calls as [|c calls IH] using rev_ind; [done|].
  rewrite run_snoc, exec_call_update_index by (by rewrite run_is_frozen).
  rewrite IH, true_args_app, length_app. lia.
Qed.

Lemma exec_call_frozen p c : is_frozen p = true → exec_call p c = p ∨
  ∃ l, c = AppendLabel l ∧ exec_call p c = append_label l p.
Proof.
  intros Hf.
  destruct c as [features pred true_label lr|features|l|average]; simpl.
  - left. by rewrite update_frozen.
  - left. by rewrite score_state, Hf.
  - right. by exists l.
  - left. by rewrite finalize_is_frozen.
Qed.

(** X14 ([_update_index] over a session).
    On a trainable model [_update_index] advances by one with every
    [update] call, those that raise IndexError included, and no other call
    moves it; on a frozen model no call moves it. *)
Theorem update_index_counts_updates calls p :
  _update_index (run calls p)
  = if is_frozen p then _update_index p
    else (_update_index p + Z.of_nat (length (true_args calls)))%Z.
Proof.
  induction calls as [|c calls IH] using rev_ind.
  { simpl. destruct (is_frozen p); lia. }
  rewrite run_snoc. destruct (is_frozen p) eqn:Hf.
  - destruct (exec_call_frozen (run calls p) c) as [->|(l & _ & ->)];
      [by rewrite run_is_frozen|done|done].
  - rewrite exec_call_update_index by (by rewrite run_is_frozen).
    rewrite IH, true_args_app, length_app. lia.
Qed.

(** *** A property of every stored feature *)

Lemma grown_weights_origin p f wg :
  weights (grown p) !! f = Some wg →
  ∃ w, weights p !! f = Some w
       ∧ (wg = w ∨ wg = state_of (FeatureWeights.resize (num_labels p) w)).
Proof.
  rewrite grown_weights. case_decide.
  - destruct (weights p !! f) as [w|]; [|done]. intros [= <-].
    exists w. split; [done|by right].
  - intros Hw. exists wg. split; [done|by left].
Qed.

Lemma finalize_fold_pointwise (P : FeatureWeights.t F → Prop)
    update_index min_update kept average
    (m0 m : gmap string (FeatureWeights.t F)) :
  (∀ w, P w →
        P (state_of (FeatureWeights.finalize update_index kept average w))) →
  map_Forall (λ _, P) m0 → map_Forall (λ _, P) m →
  map_Forall (λ _, P)
    (map_fold (finalize_step update_index min_update kept average)
       (m0, inr ∅) m).1.
Proof.
  intros HP H0.
  apply (map_fold_weak_ind (λ r m,
           map_Forall (λ _, P) m → map_Forall (λ _, P) r.1)); [done|].
  intros f w m' [st res] Hfresh IH [Hw Hm']%map_Forall_insert; [|done].
  unfold finalize_step. simpl in *.
  destruct res as [e|out]; simpl; [by apply IH|].
  case_decide; simpl; [|by apply IH].
  apply map_Forall_insert_2; [by apply HP|by apply IH].
Qed.

(** A property [Q update_index w] of stored features that resizing,
    advancing the counter, the two calls of [update] (on a stored or a
    fresh instance) and [FeatureWeights.finalize] all keep, holds of
    every stored feature throughout a session. *)
Lemma session_feature_invariant (Q : Z → FeatureWeights.t F → Prop) :
  (∀ i n w, (0 ≤ i)%Z → Q i w →
            Q i (state_of (FeatureWeights.resize n w))) →
  (∀ i w, (0 ≤ i)%Z → Q i w → Q (i + 1)%Z w) →
  (∀ i n pred true_label lr v w,
     (0 ≤ i)%Z → FeatureWeights.dim n w → (true_label < n)%nat →
     Q i w ∨ w = FeatureWeights.init n →
     Q i (state_of (feature_updates pred true_label lr v i w))) →
  (∀ i kept average w, (0 ≤ i)%Z → Q i w →
     Q i (state_of (FeatureWeights.finalize i kept average w))) →
  ∀ ls min_update label_indices calls,
    let p := run calls (init ls min_update None label_indices) in
    map_Forall (λ _ w, Q (_update_index p) w) (weights p).
Proof.
  intros Hresize Hstep Hupd Hfin ls min_update label_indices calls p.
  assert (∀ s, map_Forall (λ _ w, Q (_update_index s) w) (weights s) →
               (0 ≤ _update_index s)%Z →
               map_Forall (λ _ w, Q (_update_index s) w) (weights (grown s)))
    as Hgrown.
  { intros s Hs Hi f wg Hwg.
    apply grown_weights_origin in Hwg as (w & Hw & [->| ->]).
    - by apply (Hs f).
    - apply Hresize; [done|]. by apply (Hs f). }
  unfold p. clear p.
  induction calls as [|c calls IH] using rev_ind.
  { simpl. apply map_Forall_empty. }
  rewrite run_snoc.
  set (p := run calls (init ls min_update None label_indices)) in *.
  assert (wf p) as Hwf by apply run_wf, wf_init.
  assert (is_frozen p = false) as Hf by (by unfold p; rewrite run_is_frozen).
  assert (0 ≤ _update_index p)%Z as Hi.
  { unfold p. rewrite run_update_index_fresh. lia. }
  destruct c as [features pred true_label lr|features|l|average]; simpl.
  - rewrite update_unfrozen by done. cbv zeta.
    set (p0 := set_update_index (_update_index p + 1) p).
    assert (map_Forall (λ _ w, Q (_update_index p + 1)%Z w)
              (weights (grown p0))) as Hg0.
    { apply (Hgrown p0); [|simpl; lia].
      intros f w Hw. simpl. apply Hstep; [done|]. by apply (IH f). }
    destruct (wf_grown p0 Hwf) as [_ Hlen0].
    case_decide as Ht.
    + destruct (before_loop_covered true_label p Hwf) as [Hc Hlen].
      destruct (before_loop_frame true_label p) as (_ & _ & _ & _ & Hib).
      set (I := λ s : Perceptron.t F,
             covered (num_labels p) s
             ∧ _update_index s = (_update_index p + 1)%Z
             ∧ map_Forall (λ _ w, Q (_update_index p + 1)%Z w) (weights s)).
      assert (I (state_of (for_each (update_feature pred true_label lr)
                             features (before_loop true_label p))))
        as (_ & -> & HQ); [|done].
      apply for_each_state_inv.
      * intros fv s (Hcs & His & HQs). split_and!.
        -- by apply update_feature_covered.
        -- by rewrite (proj1 (proj2 (proj2 (proj2 (proj2
                (update_feature_frame pred true_label lr fv s)))))).
        -- intros f w. rewrite update_feature_weights.
           destruct (truthy fv.2 && bool_decide (f = fv.1));
             [|apply (HQs f)].
           intros [= <-]. rewrite His. destruct Hcs as [Hn Hd].
           apply (Hupd _ (num_labels p)); [lia| | |].
           ++ destruct (weights s !! f) as [w0|] eqn:Hw0; simpl.
              ** by apply (Hd f).
              ** rewrite Hn. apply dim_init.
           ++ rewrite Hlen0 in Ht. exact Ht.
           ++ destruct (weights s !! f) as [w0|] eqn:Hw0; simpl.
              ** left. by apply (HQs f).
              ** right. by rewrite Hn.
      * split_and!; [done|done|].
        rewrite before_loop_weights.
        intros f w Hw. apply Hstep; [done|].
        by apply (Hgrown p IH Hi f).
    + simpl. rewrite (proj2 (proj2 (proj2 (proj2 (grown_frame p0))))).
      done.
  - rewrite score_state, Hf.
    rewrite (proj2 (proj2 (proj2 (proj2 (grown_frame p))))).
    by apply Hgrown.
  - done.
  - rewrite finalize_state_update_index.
    rewrite finalize_unfrozen by done. cbv zeta.
    destruct (kept_labels (grown p)) as [|kl kept]; [by apply Hgrown|].
    unfold state_of, finalize_weights. cbn [fst set_weights weights].
    rewrite (proj2 (proj2 (proj2 (proj2 (grown_frame p))))).
    apply finalize_fold_pointwise.
    + intros w Hw. by apply Hfin.
    + by apply Hgrown.
    + by apply Hgrown.
Qed.
End SessionInvariants.

Section SessionInvariantInstances.
Context {F : Type} `{Scalar F}.
Implicit Types (p q : Perceptron.t F) (w : FeatureWeights.t F) (f : string).
Import Perceptron.

Lemma feature_updates_update_count n pred true_label lr v i w :
  FeatureWeights.dim n w → (true_label < n)%nat →
  FeatureWeights.update_count
    (state_of (feature_updates pred true_label lr v i w))
  = (FeatureWeights.update_count w + 2)%Z.
Proof.
  intros Hdim Ht. destruct (decide (pred < n)%nat) as [Hp|Hp].
  - destruct (feature_updates_returns n pred true_label lr v i w Hdim Hp Ht)
      as (w' & -> & _ & _ & _ & Hc). done.
  - destruct (feature_updates_pred_out_of_range n pred true_label lr v i w
                Hdim Ht) as (w' & -> & _ & Hc); [lia|done].
Qed.

(** X15 ([update_count] over a session).
    Throughout a session the count of every stored feature is even and at
    least 2: [Perceptron.update] counts each feature twice, also when its
    second [FeatureWeights.update] raises.  So a stored feature is never
    below a threshold [min_update <= 2]. *)
Theorem update_count_is_even ls min_update label_indices calls f w :
  let p := run calls (init ls min_update None label_indices) in
  weights p !! f = Some w →
  (∃ k, (1 ≤ k)%Z ∧ FeatureWeights.update_count w = (2 * k)%Z)
  ∧ ((_min_update p ≤ 2)%Z → below_min_update p f = false).
Proof.
  intros p Hw.
  assert (∃ k, (1 ≤ k)%Z ∧ FeatureWeights.update_count w = (2 * k)%Z)
    as Heven.
  { refine (session_feature_invariant
              (λ _ w, ∃ k, (1 ≤ k)%Z
                           ∧ FeatureWeights.update_count w = (2 * k)%Z)
              (λ _ _ _ _ Hq, Hq) (λ _ _ _ Hq, Hq) _ _
              ls min_update label_indices calls f w Hw).
    - intros i n pred true_label lr v w0 _ Hdim Ht Hq.
      rewrite (feature_updates_update_count n) by done.
      destruct Hq as [(k & Hk & ->)| ->].
      + exists (k + 1)%Z. lia.
      + exists 1%Z. simpl. lia.
    - intros i kept average w0 _ Hq. by rewrite finalize_update_count. }
  split; [done|]. intros Hmu. unfold below_min_update. rewrite Hw.
  destruct Heven as (k & Hk & ->). lia.
Qed.

Lemma update_last_update_Forall (P : Z → Prop) label value i w :
  P i → Forall P (FeatureWeights._last_update w) →
  Forall P (FeatureWeights._last_update
              (state_of (FeatureWeights.update label value i w))).
Proof.
  intros Hi Hw. unfold FeatureWeights.update, FeatureWeights._update_totals.
  unfold_m. simpl.
  destruct (FeatureWeights._totals w !! label),
    (FeatureWeights.weights w !! label) eqn:Hx,
    (FeatureWeights._last_update w !! label); simpl; rewrite ?Hx; simpl;
    try done.
  by apply Forall_insert.
Qed.

Lemma scatter_Forall {A} (P : A → Prop) (v : list A) idx vals :
  Forall P v → Forall P vals → Forall P (scatter v idx vals).
Proof.
  revert v vals. induction idx as [|i idx IH]; intros v [|x vals] Hv Hvals;
    simpl; try done.
  apply Forall_cons in Hvals as [Hx Hvals].
  apply IH; [|done]. by apply Forall_insert.
Qed.

(** X16 ([_last_update] over a session).
    Throughout a session every cell of every [_last_update] vector lies
    between 0 and the model's [_update_index]: no total is ever
    synchronised over a negative number of steps. *)
Theorem last_update_within_counter ls min_update label_indices calls f w :
  let p := run calls (init ls min_update None label_indices) in
  weights p !! f = Some w →
  Forall (λ l, (0 ≤ l ≤ _update_index p)%Z) (FeatureWeights._last_update w).
Proof.
  intros p Hw.
  refine (session_feature_invariant
            (λ i w, Forall (λ l, (0 ≤ l ≤ i)%Z)
                      (FeatureWeights._last_update w)) _ _ _ _
            ls min_update label_indices calls f w Hw).
  - intros i n w0 Hi Hq. simpl. unfold resize_vec.
    apply Forall_take, Forall_app. split; [done|].
    apply Forall_replicate. lia.
  - intros i w0 Hi Hq. eapply Forall_impl; [done|]. simpl. lia.
  - intros i n pred true_label lr v w0 Hi Hdim Ht Hq.
    assert (Forall (λ l, (0 ≤ l ≤ i)%Z) (FeatureWeights._last_update w0))
      as Hq0.
    { destruct Hq as [?| ->]; [done|]. simpl. apply Forall_replicate. lia. }
    unfold feature_updates. unfold mbind, M_bind.
    assert (0 ≤ i ≤ i)%Z as Hii by lia.
    pose proof (update_last_update_Forall (λ l, (0 ≤ l ≤ i)%Z) true_label
                  (fmul lr v) i w0 Hii Hq0) as H1.
    destruct (FeatureWeights.update true_label (fmul lr v) i w0)
      as [w1 [e|[]]]; simpl in *; [done|].
    by apply (update_last_update_Forall (λ l, (0 ≤ l ≤ i)%Z)).
  - intros i kept average w0 Hi Hq. rewrite finalize_state.
    unfold FeatureWeights._update_totals_list.
    destruct (gather (FeatureWeights._totals w0) kept),
      (gather (FeatureWeights.weights w0) kept),
      (gather (FeatureWeights._last_update w0) kept); simpl; try done.
    apply scatter_Forall; [done|]. apply Forall_replicate. lia.
Qed.
End SessionInvariantInstances.

(** ** Persistence: reloading and resuming *)

Section Resuming.
Context {F : Type} `{Scalar F}.
Implicit Types (p q : Perceptron.t F) (w : FeatureWeights.t F) (f : string).
Implicit Types (calls : list (Perceptron.call F)).
Import Perceptron.

(** X17 ([load] after [save]).
    [save] and then [load] on the saving instance itself changes nothing.
    Into any other instance, [load] brings the labels, the weights and the
    mode of the saved model, and its three training fields when it is
    trainable; the receiving instance keeps its own [_label_indices] and
    [_init_num_labels], and, when the saved model is frozen, its own
    training fields. *)
Theorem load_after_save p p' :
  let r := state_of (load (save p) p') in
  load (save p) p = (p, inr tt)
  ∧ outcome (load (save p) p') = inr tt
  ∧ labels r = labels p ∧ weights r = weights p
  ∧ is_frozen r = is_frozen p
  ∧ _label_indices r = _label_indices p'
  ∧ _init_num_labels r = _init_num_labels p'
  ∧ (_min_update r, _update_index r, _true_labels r)
    = (if is_frozen p
       then (_min_update p', _update_index p', _true_labels p')
       else (_min_update p, _update_index p, _true_labels p)).
Proof.
  cbv zeta. unfold load, save, state_of, outcome. unfold_m. simpl.
  destruct p as [ls n m fr li mu ui tl], p'. simpl.
  by destruct fr.
Qed.

Local Abbreviation h := set_init_num_labels.

Lemma grown_set_init k p : grown (h k p) = h k (grown p).
Proof.
  unfold grown, _update_num_labels, modify, state_of, num_labels. simpl.
  by case_decide.
Qed.

Lemma for_each_commutes {S A} (g : S → S) (body : A → M S unit) xs s :
  (∀ x s', body x (g s') = (g (state_of (body x s')), outcome (body x s'))) →
  for_each body xs (g s)
  = (g (state_of (for_each body xs s)), outcome (for_each body xs s)).
Proof.
  intros Hb. revert s. induction xs as [|x xs IH]; intros s; [done|].
  rewrite !for_each_cons, Hb. unfold state_of, outcome.
  destruct (body x s) as [s' [e|[]]]; [done|]. simpl. apply IH.
Qed.

Lemma update_feature_set_init k pred true_label lr fv p :
  update_feature pred true_label lr fv (h k p)
  = (h k (state_of (update_feature pred true_label lr fv p)),
     outcome (update_feature pred true_label lr fv p)).
Proof.
  unfold update_feature, with_feature. unfold_m.
  by destruct (truthy fv.2).
Qed.

Lemma update_set_init k features pred true_label lr p :
  update features pred true_label lr (h k p)
  = (h k (state_of (update features pred true_label lr p)),
     outcome (update features pred true_label lr p)).
Proof.
  destruct (is_frozen p) eqn:Hf.
  { rewrite !update_frozen by done. done. }
  rewrite !update_unfrozen by done. cbv zeta.
  change (set_update_index (_update_index (h k p) + 1) (h k p))
    with (h k (set_update_index (_update_index p + 1) p)).
  rewrite grown_set_init.
  change (_true_labels (h k ?x)) with (_true_labels x).
  case_decide; [|done].
  assert (before_loop true_label (h k p) = h k (before_loop true_label p))
    as ->.
  { unfold before_loop.
    change (set_update_index (_update_index (h k p) + 1) (h k p))
      with (h k (set_update_index (_update_index p + 1) p)).
    by rewrite grown_set_init. }
  apply for_each_commutes. intros fv s. apply update_feature_set_init.
Qed.

Lemma score_set_init k features p :
  score features (h k p)
  = (h k (state_of (score features p)), outcome (score features p)).
Proof.
  rewrite !score_unfold. cbv zeta.
  change (is_frozen (h k p)) with (is_frozen p).
  assert ((if is_frozen p then h k p else grown (h k p))
          = h k (if is_frozen p then p else grown p)) as ->.
  { destruct (is_frozen p); [done|apply grown_set_init]. }
  set (p1 := if is_frozen p then p else grown p).
  change (num_labels (h k p1)) with (num_labels p1).
  assert (∀ scores,
            score_loop (h k p1) scores features
            = score_loop p1 scores features) as ->.
  { intros scores. apply score_loop_ext; try done. by right. }
  by destruct (score_loop p1 _ features).
Qed.

Lemma finalize_set_init k average p :
  finalize average (h k p)
  = (h k (state_of (finalize average p)), outcome (finalize average p)).
Proof.
  destruct (is_frozen p) eqn:Hf.
  { rewrite !finalize_is_frozen by done. done. }
  rewrite !finalize_unfrozen by done. cbv zeta.
  rewrite grown_set_init.
  change (kept_labels (h k (grown p))) with (kept_labels (grown p)).
  by destruct (kept_labels (grown p)).
Qed.

Lemma run_set_init k calls p : run calls (h k p) = h k (run calls p).
Proof.
  induction calls as [|c calls IH] using rev_ind; [done|].
  rewrite !run_snoc, IH.
  destruct c as [features pred true_label lr|features|l|average]; simpl.
  - by rewrite update_set_init.
  - by rewrite score_set_init.
  - done.
  - by rewrite finalize_set_init.
Qed.

(** X18 (training after a reload).
    Training resumes after a reload.  A trainable model without a
    remapping is saved and loaded into a fresh instance.  Whatever calls
    follow, the reloaded model goes through the same states as the
    original, up to [_init_num_labels] (which only the report of
    [finalize] reads); [finalize] then returns the same frozen model and
    [score] the same dictionary. *)
Theorem training_resumes_after_reload calls average features p :
  is_frozen p = false → _label_indices p = None →
  run calls (restored p) = set_init_num_labels 0 (run calls p)
  ∧ outcome (finalize average (run calls (restored p)))
    = outcome (finalize average (run calls p))
  ∧ outcome (score features (run calls (restored p)))
    = outcome (score features (run calls p)).
Proof.
  intros Hf Hi.
  assert (restored p = h 0 p) as ->.
  { unfold restored. rewrite load_save_fresh. unfold state_of. simpl.
    rewrite Hf. unfold set_init_num_labels. rewrite Hi.
    destruct p; simpl in *. by subst. }
  rewrite run_set_init. split_and!.
  - done.
  - by rewrite finalize_set_init.
  - by rewrite score_set_init.
Qed.
End Resuming.

(** ** The summary line *)

Section Summary.
Context {F : Type} `{Scalar F}.
Implicit Types (p q : Perceptron.t F).
Import Perceptron.

Lemma count_true_app_false (tl : list bool) k :
  filter (λ b, b = true) (tl ++ replicate k false)
  = filter (λ b, b = true) tl.
Proof.
  rewrite filter_app.
  assert (filter (λ b, b = true) (replicate k false) = []) as ->.
  { induction k as [|k IH]; [done|]. simpl. by rewrite filter_cons_False. }
  apply app_nil_r.
Qed.

Lemma count_true_zip {A} (tl : list bool) (ls : list A) :
  (length tl ≤ length ls)%nat →
  length (filter (λ x : bool * A, x.1 = true) (zip tl ls))
  = length (filter (λ b, b = true) tl).
Proof.
  revert ls. induction tl as [|b tl IH]; intros [|l ls] Hle; simpl in *;
    [done|done|lia|].
  rewrite !filter_cons. simpl. destruct b; simpl.
  - f_equal. apply IH. lia.
  - apply IH. lia.
Qed.

Lemma kept_count {A} (z : list (bool * A)) j :
  length (omap (λ x : nat * (bool * A),
                  if x.2.1 then Some (x.1, x.2.2) else None)
               (zip (seq j (length z)) z))
  = length (filter (λ x : bool * A, x.1 = true) z).
Proof.
  revert j. induction z as [|[b a] z IH]; intros j; [done|].
  simpl. rewrite filter_cons. simpl. destruct b; simpl.
  - f_equal. apply IH.
  - apply IH.
Qed.

(** X19 ([__str__] and [finalize]).
    The summary line agrees with [finalize].  When [finalize] returns a
    model on a well-formed trainable model, the number of labels that
    [str] reports as occurred is the number of labels of the returned
    model, and the returned model reports itself as frozen with that many
    labels in total. *)
Theorem str_counts_finalized_labels average p q :
  wf p → outcome (finalize average p) = inr q →
  __str__ p = pretty (num_labels p) +:+ " labels total, "
              +:+ pretty (num_labels q) +:+ " labels occurred"
  ∧ __str__ q = pretty (num_labels q) +:+ " labels total, frozen".
Proof.
  intros [Hle _] (Hf & _ & Hfq & Hl & _)%finalize_returns_model.
  unfold __str__. rewrite Hf, Hfq. split; [|done].
  replace (num_labels q)
    with (length (filter (λ b, b = true) (_true_labels p))); [done|].
  unfold num_labels at 1. rewrite Hl, length_fmap.
  unfold kept_labels, enumerate. rewrite kept_count.
  destruct (grown_frame p) as (-> & _). rewrite grown_true_labels.
  rewrite count_true_zip, count_true_app_false; [done|].
  rewrite length_app, length_replicate. unfold num_labels in *. lia.
Qed.
End Summary.

(** ** The further properties at the scenario *)


(** Positions 0 and 5 on vectors of length 2. *)
Lemma finalize_out_of_range_untouched_witness :
  FeatureWeights.finalize 1 [0; 5]%nat true (FeatureWeights.init (F:=float) 2)
  = (FeatureWeights.init 2, inl IndexError).
Proof.
  apply (finalize_out_of_range_untouched (F:=float) 2).
  - by vm_compute.
  - apply Exists_cons_tl, Exists_cons_hd. lia.
Defined.

(** Positions 1 and 0 of the stored feature of the scenario. *)
Lemma _update_totals_list_sequential_witness :
  FeatureWeights._update_totals_list [1; 0]%nat 3
    (FeatureWeights.init (F:=float) 2)
  = for_each (λ l, FeatureWeights._update_totals l 3) [1; 0]%nat
      (FeatureWeights.init (F:=float) 2).
Proof.
  apply (_update_totals_list_sequential (F:=float) 2).
  - by vm_compute.
  - apply NoDup_cons. split; [|apply NoDup_singleton].
    intros [=]%list_elem_of_singleton.
  - repeat constructor.
Defined.

(** [score] after the first call of the scenario. *)
Lemma score_returns_every_label_witness :
  ∃ d, Perceptron.score Scenario.f1 Scenario.after_first
       = (Perceptron.grown Scenario.after_first, inr d)
       ∧ ∀ i, is_Some (d !! i)
              ↔ (i < Perceptron.num_labels Scenario.after_first)%nat.
Proof.
  apply (score_returns_every_label (F:=float)).
  - apply update_wf, wf_init.
  - vm_compute. reflexivity.
  - vm_compute. reflexivity.
Defined.

(** The finalized model of the scenario scores its one kept label. *)
Lemma finalized_model_scores_witness :
  ∃ idx d,
    Perceptron._label_indices Scenario.finalized = Some idx
    ∧ Perceptron.score Scenario.f1 Scenario.finalized
      = (Scenario.finalized, inr d)
    ∧ ∀ i, is_Some (d !! i) ↔ i ∈ idx.
Proof.
  apply (finalized_model_scores (F:=float) true Scenario.after_second).
  vm_compute. reflexivity.
Defined.

(** [update({"f1": 0.0}, pred=0, true=1)] on the fresh model. *)
Lemma update_without_features_witness :
  Perceptron.update [("f1"%string, 0%float)] 0 1 1%float Scenario.start
  = (Perceptron.before_loop 1 Scenario.start, inr tt)
  ∧ Perceptron._update_index (Perceptron.before_loop 1 Scenario.start)
    = (Perceptron._update_index Scenario.start + 1)%Z.
Proof.
  destruct (update_without_features (F:=float) 0 1 1%float
              [("f1"%string, 0%float)] Scenario.start)
    as (Hrun & _ & Hidx & _).
  - reflexivity.
  - constructor; [|constructor]. vm_compute. reflexivity.
  - right. vm_compute. lia.
  - by split.
Defined.

(** [update({"f1": 1.0}, pred=0, true=2)] on the two labels. *)
Lemma update_true_label_out_of_range_witness :
  Perceptron.update Scenario.f1 0 2 1%float Scenario.start
  = (Perceptron.grown
       (Perceptron.set_update_index
          (Perceptron._update_index Scenario.start + 1) Scenario.start),
     inl IndexError).
Proof.
  apply (update_true_label_out_of_range (F:=float)).
  - reflexivity.
  - vm_compute. lia.
  - vm_compute. lia.
Defined.

(** [update({"f1": 1.0}, pred=2, true=1)] on the two labels. *)
Lemma update_pred_out_of_range_witness :
  ∃ p' w',
    Perceptron.update Scenario.f1 2 1 1%float Scenario.start
    = (p', inl IndexError)
    ∧ Perceptron.weights p' !! "f1"%string = Some w'
    ∧ FeatureWeights.update_count w' = 2%Z.
Proof.
  destruct (update_pred_out_of_range (F:=float) "f1"%string 1%float [] 2 1
              1%float Scenario.start)
    as (p' & w' & Hrun & _ & _ & Hw' & _ & Hcount & _).
  - apply wf_init.
  - reflexivity.
  - vm_compute. reflexivity.
  - vm_compute. lia.
  - vm_compute. lia.
  - exists p', w'. split_and!; [exact Hrun|exact Hw'|exact Hcount].
Defined.

(** After the first call of the scenario, [finalize] returns. *)
Lemma finalize_returns_after_update_witness :
  ∃ q, outcome (Perceptron.finalize true Scenario.after_first) = inr q
       ∧ Perceptron.is_frozen q = true.
Proof.
  destruct (finalize_returns_after_update (F:=float) true
              Scenario.after_first) as [Hflag _].
  - apply update_wf, wf_init.
  - vm_compute. reflexivity.
  - destruct (Hflag 1%nat) as (q & Hq & Hfq & _).
    + vm_compute. reflexivity.
    + by exists q.
Defined.

(** The averaged weight of f1 in the finalized model of the scenario. *)
Lemma finalize_weights_formula_witness :
  ∃ idx w,
    Perceptron._label_indices Scenario.finalized = Some idx
    ∧ Perceptron.weights (Perceptron.grown Scenario.after_second)
        !! "f1"%string = Some w
    ∧ length (FeatureWeights.weights
                (FeatureWeights.of_weights [0.5%float]))
      = length idx.
Proof.
  destruct (finalize_weights_formula (F:=float) true Scenario.after_second
              Scenario.finalized "f1"%string
              (FeatureWeights.of_weights [0.5%float]))
    as (idx & w & Hidx & Hw & Hlen & _).
  - apply update_wf, update_wf, wf_init.
  - vm_compute. reflexivity.
  - vm_compute. reflexivity.
  - by exists idx, w.
Defined.

(** The count of f1 after the two calls of the scenario. *)
Lemma update_count_is_even_witness :
  ∃ w, Perceptron.weights (Perceptron.run Scenario.session Scenario.start)
         !! "f1"%string = Some w
       ∧ ∃ k, (1 ≤ k)%Z ∧ FeatureWeights.update_count w = (2 * k)%Z.
Proof.
  destruct (Perceptron.weights (Perceptron.run Scenario.session
                                  Scenario.start) !! "f1"%string)
    as [w|] eqn:Hw; [|vm_compute in Hw; discriminate].
  exists w. split; [reflexivity|].
  apply (update_count_is_even (F:=float) ["A"; "B"]%string 1 None
           Scenario.session "f1"%string w Hw).
Defined.

(** The synchronisation steps of f1 after the two calls of the scenario. *)
Lemma last_update_within_counter_witness :
  ∃ w, Perceptron.weights (Perceptron.run Scenario.session Scenario.start)
         !! "f1"%string = Some w
       ∧ Forall (λ l, (0 ≤ l ≤ Perceptron._update_index
                                 (Perceptron.run Scenario.session
                                    Scenario.start))%Z)
                (FeatureWeights._last_update w).
Proof.
  destruct (Perceptron.weights (Perceptron.run Scenario.session
                                  Scenario.start) !! "f1"%string)
    as [w|] eqn:Hw; [|vm_compute in Hw; discriminate].
  exists w. split; [reflexivity|].
  apply (last_update_within_counter (F:=float) ["A"; "B"]%string 1 None
           Scenario.session "f1"%string w Hw).
Defined.

(** The model of the scenario saved after its first call and reloaded:
    the second call leaves the state of the original. *)
Lemma training_resumes_after_reload_witness :
  Perceptron.run [Perceptron.Update Scenario.f1 1 1 1%float]
    (Perceptron.restored Scenario.after_first)
  = Perceptron.set_init_num_labels 0
      (Perceptron.run [Perceptron.Update Scenario.f1 1 1 1%float]
         Scenario.after_first)
  ∧ outcome (Perceptron.finalize true
               (Perceptron.run [Perceptron.Update Scenario.f1 1 1 1%float]
                  (Perceptron.restored Scenario.after_first)))
    = outcome (Perceptron.finalize true
                 (Perceptron.run [Perceptron.Update Scenario.f1 1 1 1%float]
                    Scenario.after_first))
  ∧ outcome (Perceptron.score Scenario.f1
               (Perceptron.run [Perceptron.Update Scenario.f1 1 1 1%float]
                  (Perceptron.restored Scenario.after_first)))
    = outcome (Perceptron.score Scenario.f1
                 (Perceptron.run [Perceptron.Update Scenario.f1 1 1 1%float]
                    Scenario.after_first)).
Proof.
  apply (training_resumes_after_reload (F:=float)).
  - vm_compute. reflexivity.
  - vm_compute. reflexivity.
Defined.

(** The summary lines of the scenario, before and after [finalize]. *)
Lemma str_counts_finalized_labels_witness :
  Perceptron.__str__ Scenario.after_second
  = "2 labels total, 1 labels occurred"%string
  ∧ Perceptron.__str__ Scenario.finalized
    = "1 labels total, frozen"%string.
Proof.
  destruct (str_counts_finalized_labels (F:=float) true Scenario.after_second
              Scenario.finalized) as [Hp Hq].
  - apply update_wf, update_wf, wf_init.
  - vm_compute. reflexivity.
  - split; [rewrite Hp|rewrite Hq]; vm_compute; reflexivity.
Defined.
